(* ===================================================================== *)
(* text_games: the castle adventure (adv_game.py) and Rock Paper Scissors *)
(* Lizard Spock (rpsls.py), embedded as executable Rocq definitions.      *)
(*                                                                       *)
(* Python objects are mutated in place; here every method takes `self`    *)
(* and gives the updated `self` back, and the process-wide state (the     *)
(* console, the random source, the SenseClueGenerator singleton) is       *)
(* threaded through a state-and-exception monad.                          *)
(* ===================================================================== *)

From HB Require Import structures.
From Stdlib Require Import String Ascii ZArith DecimalString Lia.
From mathcomp Require Import boot.

Set Implicit Arguments.
Unset Strict Implicit.
Unset Printing Implicit Defensive.
#[local] Set Warnings "-rewrite-rw".

(* --------------------------------------------------------------------- *)
(* Python text                                                            *)
(* --------------------------------------------------------------------- *)

(* A `str` is modelled as a Rocq string whose characters are the code
   points below 256. `==` on str is String.eqb. *)
HB.instance Definition _ := hasDecEq.Build string String.eqb_spec.

Definition nl : string := String (ascii_of_nat 10) EmptyString.

Definition cat_str (a b : string) : string := String.append a b.
Infix "+s" := cat_str (at level 50, left associativity).

(* str(n) for a non-negative int *)
Definition str_of_nat (n : nat) : string :=
  NilEmpty.string_of_uint (Nat.to_uint n).

(* str.isspace on one character: TAB..CR, FS..US, SPACE, NEL, NBSP *)
Definition isspace (c : ascii) : bool :=
  let n := nat_of_ascii c in
  [|| (9 <= n) && (n <= 13), (28 <= n) && (n <= 32), n == 133 | n == 160].

Fixpoint lstrip (s : string) : string :=
  match s with
  | EmptyString => EmptyString
  | String c s' => if isspace c then lstrip s' else s
  end.

Fixpoint rstrip (s : string) : string :=
  match s with
  | EmptyString => EmptyString
  | String c s' =>
      match rstrip s' with
      | EmptyString => if isspace c then EmptyString else String c EmptyString
      | r => String c r
      end
  end.

(* str.strip() *)
Definition strip (s : string) : string := rstrip (lstrip s).

(* str.lower() on one character: A-Z and the accented capitals
   U+00C0..U+00DE (but not the multiplication sign U+00D7) move up by 32 *)
Definition lower_char (c : ascii) : ascii :=
  let n := nat_of_ascii c in
  if [|| (65 <= n) && (n <= 90) | [&& 192 <= n, n <= 222 & n != 215]]
  then ascii_of_nat (n + 32) else c.

Fixpoint lower (s : string) : string :=
  match s with
  | EmptyString => EmptyString
  | String c s' => String (lower_char c) (lower s')
  end.

(* The first character of str.capitalize(): a-z and the accented small
   letters U+00E0..U+00FE (but not the division sign U+00F7) move down by
   32, and the sharp s becomes Ss. The capitals of the micro sign and of
   y with diaeresis lie above 255; these two are left as they are (the
   program capitalizes the words of CHOICES only). *)
Definition title_char (c : ascii) : string :=
  let n := nat_of_ascii c in
  if [|| (97 <= n) && (n <= 122) | [&& 224 <= n, n <= 254 & n != 247]]
  then String (ascii_of_nat (n - 32)) EmptyString
  else if n == 223 then "Ss"%string
  else String c EmptyString.

(* str.capitalize() *)
Definition capitalize (s : string) : string :=
  match s with
  | EmptyString => EmptyString
  | String c s' => String.append (title_char c) (lower s')
  end.

(* s.startswith(p) *)
Definition startswith (s p : string) : bool := String.prefix p s.

Definition digit_of (c : ascii) : option Z :=
  let n := nat_of_ascii c in
  if (48 <= n) && (n <= 57) then Some (Z.of_nat (n - 48)) else None.

(* The digits of an int literal in base 10: groups of digits separated by
   single underscores. [after_digit] says that the character before was
   a digit. *)
Fixpoint int_digits (acc : Z) (after_digit : bool) (s : string) : option Z :=
  match s with
  | EmptyString => if after_digit then Some acc else None
  | String c s' =>
      match digit_of c with
      | Some d => int_digits (10 * acc + d)%Z true s'
      | None =>
          if Ascii.eqb c "_"%char && after_digit
          then int_digits acc false s' else None
      end
  end.

(* int(s): surrounding whitespace, an optional sign, then the digits.
   None stands for ValueError. *)
Definition int (s : string) : option Z :=
  match strip s with
  | String "+"%char d => int_digits 0 false d
  | String "-"%char d => omap Z.opp (int_digits 0 false d)
  | d => int_digits 0 false d
  end.

(* --------------------------------------------------------------------- *)
(* Values shared by the modules                                           *)
(* --------------------------------------------------------------------- *)

(* class RandomItemSelector: the two attributes of an instance *)
Record selector (T : Type) : Type :=
  Selector { items : seq T; used_items : seq T }.

(* class encounter_outcome(Enum), also known as EncounterOutcome *)
Inductive EncounterOutcome : Type := CONTINUE | END.

(* The exceptions the modelled code can raise and not catch. *)
Inductive exn : Type := IndexError | EOFError | KeyError.

(* The state of the process outside the object a method works on. *)
Record world : Type := World {
  stdin : seq string;          (* the lines input() has still to read *)
  stdout : seq string;         (* what print() and input() wrote, in order *)
  random_bits : nat -> nat;    (* the random source: its k-th raw draw *)
  random_pos : nat;            (* how many raw draws were consumed *)
  clue_selector : selector string;   (* SenseClueGenerator._instance... *)
  sense_selector : selector string   (* ...and its two selectors *)
}.

(* What a call does: return a value in a new state, raise, or (for the
   model's count-down loops only) give up. *)
Inductive result (A : Type) : Type :=
  | Ok (a : A) (w : world)
  | Raise (e : exn)
  | OutOfFuel.
Arguments Raise {A} e.
Arguments OutOfFuel {A}.

Definition M (A : Type) : Type := world -> result A.

Definition ret {A} (a : A) : M A := fun w => Ok a w.

Definition bind {A B} (m : M A) (k : A -> M B) : M B :=
  fun w => match m w with
           | Ok a w' => k a w'
           | Raise e => Raise e
           | OutOfFuel => OutOfFuel
           end.

Definition raise {A} (e : exn) : M A := fun _ => Raise e.

Notation "x <~ m ;; k" := (bind m (fun x => k))
  (at level 61, m at next level, right associativity).
Notation "m ;; k" := (bind m (fun _ => k))
  (at level 61, right associativity).

(* print(s); the text is kept as the source writes it, without the line
   end print adds *)
Definition print (s : string) : M unit :=
  fun w => Ok tt (World (stdin w) (rcons (stdout w) s) (random_bits w)
                        (random_pos w) (clue_selector w) (sense_selector w)).

(* input(prompt): writes the prompt, reads one line; EOFError at the end
   of the input *)
Definition input (prompt : string) : M string :=
  fun w => match stdin w with
           | [::] => Raise EOFError
           | l :: ls =>
               Ok l (World ls (rcons (stdout w) prompt) (random_bits w)
                           (random_pos w) (clue_selector w) (sense_selector w))
           end.

(* The state after one more raw draw was taken from the random source *)
Definition tick (w : world) : world :=
  World (stdin w) (stdout w) (random_bits w) (random_pos w).+1
        (clue_selector w) (sense_selector w).

(* random's _randbelow(n) for 0 < n: the next raw draw, reduced below n *)
Definition randbelow (n : nat) : M nat :=
  fun w => Ok (random_bits w (random_pos w) %% n) (tick w).

(* seq[i] for 0 <= i; IndexError out of range *)
Fixpoint getitem {A} (s : seq A) (i : nat) : M A :=
  match s, i with
  | [::], _ => raise IndexError
  | x :: _, 0 => ret x
  | _ :: s', i'.+1 => getitem s' i'
  end.

(* random.choice(seq): seq[_randbelow(len(seq))], IndexError on an empty
   sequence *)
Definition random_choice {A} (s : seq A) : M A :=
  if nilp s then raise IndexError
  else i <~ randbelow (size s) ;; getitem s i.

(* random.randint(a, b) for a <= b *)
Definition randint (a b : nat) : M nat :=
  i <~ randbelow (b - a).+1 ;; ret (a + i).

(* `while True:` with the loop-carried variables in [s]. The body says
   inl s' to go round again (falling off the end of the body, or
   `continue`) and inr a to leave (`return`, `break`). *)
Fixpoint while_true {S A} (fuel : nat) (body : S -> M (S + A)) (s : S) : M A :=
  fun w =>
    match fuel with
    | 0 => OutOfFuel
    | fuel'.+1 =>
        match body s w with
        | Ok (inl s') w' => while_true fuel' body s' w'
        | Ok (inr a) w' => Ok a w'
        | Raise e => Raise e
        | OutOfFuel => OutOfFuel
        end
    end.

(* Every loop of the program calls input() on each round, so it goes
   round at most once per remaining line and once more (for EOFError). *)
Definition enough_fuel (w : world) : nat := (size (stdin w)).+1.

(* m reads at least k lines when it returns, and does not give up *)
Definition consumes (k : nat) {A} (m : M A) : Prop :=
  forall w, match m w return Prop with
            | Ok _ w' => size (stdin w') + k <= size (stdin w)
            | Raise _ => True
            | OutOfFuel => False
            end.

(* m does not give up, raises nothing but EOFError, and what it returns
   satisfies P *)
Definition returns {A} (P : A -> Prop) (m : M A) : Prop :=
  forall w, match m w return Prop with
            | Ok a _ => P a
            | Raise e => e = EOFError
            | OutOfFuel => False
            end.

(* The line is an int between lo and hi *)
Definition numbered (lo hi : Z) (s : string) : bool :=
  if int s is Some v then (lo <=? v)%Z && (v <=? hi)%Z else false.

(* w once its input is read down to lines and out is written *)
Definition with_console (lines out : seq string) (w : world) : world :=
  World lines (stdout w ++ out) (random_bits w) (random_pos w)
        (clue_selector w) (sense_selector w).

(* --------------------------------------------------------------------- *)
(* class RandomItemSelector                                               *)
(* --------------------------------------------------------------------- *)

Module RandomItemSelector.
Section Methods.
Variable T : eqType.

(* __init__(self, items=None) *)
Definition init (its : seq T) : selector T :=
  Selector (if nilp its then [::] else its) [::].

Definition add_item (self : selector T) (item : T) : selector T :=
  Selector (rcons (items self) item) (used_items self).

Definition reset (self : selector T) : selector T :=
  Selector (items self) [::].

(* {self.items.index(x) for x in self.used_items if x in self.items} *)
Definition used_indices (self : selector T) : seq nat :=
  [seq index x (items self) | x <- used_items self & x \in items self].

(* [i for i in range(len(self.items)) if i not in {...}] *)
Definition available_indices (self : selector T) : seq nat :=
  [seq i <- iota 0 (size (items self)) | i \notin used_indices self].

(* if not available_indices: self.reset(); available_indices = list(range(...)) *)
Definition refill (self : selector T) (avail : seq nat) : selector T * seq nat :=
  if nilp avail then (reset self, iota 0 (size (items self)))
  else (self, avail).

Definition pull_random_item (self : selector T) : M (option T * selector T) :=
  if nilp (items self) then
    ret (None, Selector (items self) [::])
  else
    let: (self, avail) := refill self (available_indices self) in
    choice_idx <~ random_choice avail ;;
    choice <~ getitem (items self) choice_idx ;;
    ret (Some choice, Selector (items self) (rcons (used_items self) choice)).

(* The index random.choice picks in pull_random_item *)
Definition chosen_index (self : selector T) (w : world) : nat :=
  let avail := (refill self (available_indices self)).2 in
  nth 0 avail (random_bits w (random_pos w) %% size avail).

(* n calls of pull_random_item in a row, with what each returned *)
Fixpoint pull_n (n : nat) (self : selector T) : M (seq (option T) * selector T) :=
  if n is n'.+1 then
    r <~ pull_random_item self ;;
    rs <~ pull_n n' r.2 ;;
    ret (r.1 :: rs.1, rs.2)
  else ret ([::], self).

(* The calls a client can make on a selector, and a sequence of them *)
Inductive op : Type := AddItem (item : T) | Pull | Reset.

Definition run_op (o : op) (self : selector T) : M (selector T) :=
  match o with
  | AddItem item => ret (add_item self item)
  | Pull => r <~ pull_random_item self ;; ret r.2
  | Reset => ret (reset self)
  end.

Fixpoint run_ops (os : seq op) (self : selector T) : M (selector T) :=
  if os is o :: os' then self' <~ run_op o self ;; run_ops os' self'
  else ret self.

(* u is a sub-multiset of s: no value occurs more often in u than in s *)
Definition submultiset (u s : seq T) : bool :=
  all (fun x => count_mem x u <= count_mem x s) u.

(* The calls of add_item in os only add values the pool does not hold *)
Fixpoint adds_fresh (os : seq op) (its : seq T) : bool :=
  match os with
  | [::] => true
  | AddItem x :: os' => (x \notin its) && adds_fresh os' (rcons its x)
  | _ :: os' => adds_fresh os' its
  end.

(* What holds of a selector over distinct values between two resets: no
   value was drawn twice, and every drawn value is in the pool. *)
Definition within_cycle (self : selector T) : bool :=
  uniq (used_items self) && all [in items self] (used_items self).

(* The states a cycle starts from: nothing drawn yet, or everything *)
Definition cycle_start (self : selector T) : Prop :=
  [/\ uniq (items self), within_cycle self
    & used_items self = [::] \/ size (items self) <= size (used_items self)].

End Methods.
End RandomItemSelector.

(* --------------------------------------------------------------------- *)
(* Dictionaries, as the literal lists them (insertion order)              *)
(* --------------------------------------------------------------------- *)

Section Dict.
Variables (K : eqType) (V : Type).

Definition dict : Type := seq (K * V).

(* list(d.keys()) *)
Definition keys (d : dict) : seq K := [seq kv.1 | kv <- d].

(* k in d *)
Definition dict_mem (k : K) (d : dict) : bool := k \in keys d.

Fixpoint dict_find (d : dict) (k : K) : option V :=
  match d with
  | [::] => None
  | kv :: d' => if kv.1 == k then Some kv.2 else dict_find d' k
  end.

(* d[k]; KeyError when k is not a key *)
Definition dict_get (d : dict) (k : K) : M V :=
  if dict_find d k is Some v then ret v else raise KeyError.

End Dict.

(* --------------------------------------------------------------------- *)
(* The module-level lists of sentences                                    *)
(* --------------------------------------------------------------------- *)

Definition clues : seq string := [::
  "There is a smudge of dried ink on the underside of the table.";
  "There is a faint scorch on the carpet as if something hot had been placed there.";
  "There is a single muddy footprint pressed into the rug's fringe.";
  "There is a scrap of paper folded three times and tucked into the baseboard.";
  "There is a whisper of perfume that doesn't match any occupant's clothing.";
  "There is a hidden latch behind the bookshelf, its edges recently worn.";
  "There is a streak of crimson along the windowsill that has dried a while.";
  "There is a child's toy, intact but abandoned, under the radiator.";
  "There is a calendar with one day circled and the ink smudged by a trembling hand.";
  "There is a loose floorboard with a small hollow stamped into dust beneath it."
]%string.

Definition sense_exp : seq string := [::
  "You see torchlight pooling along the flagstones, though no torch burns nearby.";
  "You hear the slow turning of gears somewhere deep in the wall, patient and eternal.";
  "You smell cold iron mixed with old beeswax and something floral that has lingered for years.";
  "You feel the carved stone hum faintly beneath your fingertips, as if remembering a name.";
  "You sense the room holding its breath, a quiet pressure that makes your heartbeat louder.";
  "You see motes of dust dancing in a shaft of moonlight that slices through a narrow slit.";
  "You hear a draped curtain stir though the air is still, like the echo of a passing cloak.";
  "You smell smoke and melted wax threaded through the tapestry's weave.";
  "You feel a chill run along the baseboard as if footsteps passed by moments ago.";
  "You see a shadow pause in the corner, not quite matching the shape of anything known.";
  "You hear a faint, off-key melody humming from behind a sealed door.";
  "You sense something familiar and foreign at once, a memory that belongs to someone else."
]%string.

(* --------------------------------------------------------------------- *)
(* class SenseClueGenerator: one instance per process, kept in the world  *)
(* --------------------------------------------------------------------- *)

Module SenseClueGenerator.

(* The process as it is once the module is loaded: __new__ has built the
   singleton (the first DefaultEncounter() of castle_rooms does it). *)
Definition new (lines : seq string) (bits : nat -> nat) : world :=
  World lines [::] bits 0
        (RandomItemSelector.init clues) (RandomItemSelector.init sense_exp).

Definition set_clue_selector (s : selector string) : M unit :=
  fun w => Ok tt (World (stdin w) (stdout w) (random_bits w) (random_pos w)
                        s (sense_selector w)).

Definition set_sense_selector (s : selector string) : M unit :=
  fun w => Ok tt (World (stdin w) (stdout w) (random_bits w) (random_pos w)
                        (clue_selector w) s).

(* self.clue_selector.pull_random_item() *)
Definition pull_clue : M (option string) :=
  fun w => (r <~ RandomItemSelector.pull_random_item (clue_selector w) ;;
            set_clue_selector r.2 ;; ret r.1) w.

(* self.sense_selector.pull_random_item() *)
Definition pull_sense : M (option string) :=
  fun w => (r <~ RandomItemSelector.pull_random_item (sense_selector w) ;;
            set_sense_selector r.2 ;; ret r.1) w.

(* The truth value of a str-or-None: None and the empty str are false. *)
Definition truthy (o : option string) : bool :=
  if o is Some s then s != EmptyString else false.

(* a or b *)
Definition or_else (a b : option string) : option string :=
  if truthy a then a else b.

Definition get_senseclue : M string :=
  clue <~ pull_clue ;;
  sense <~ pull_sense ;;
  if truthy clue && truthy sense then
    ret (odflt EmptyString sense +s " " +s odflt EmptyString clue)
  else
    ret (odflt EmptyString (or_else (or_else clue sense) (Some EmptyString))).

Definition pull_random_item : M string := get_senseclue.

End SenseClueGenerator.

(* --------------------------------------------------------------------- *)
(* The encounters                                                         *)
(* --------------------------------------------------------------------- *)

Module DefaultEncounter.

Definition run_encounter : M EncounterOutcome :=
  out <~ SenseClueGenerator.pull_random_item ;;
  print out ;;
  ret CONTINUE.

End DefaultEncounter.

Module TreasureEncounter.

Definition run_encounter : M EncounterOutcome :=
  print "As you enter, a chest gleams in the torchlight — you've found the treasure!" ;;
  print "Congratulations, you have won the game." ;;
  ret END.

End TreasureEncounter.

Module RedWizard.

Definition game_rules : dict string (seq string) := [::
  ("Fireball", [:: "Ice Shard"; "Lightning Bolt"]);
  ("Ice Shard", [:: "Wind Gust"; "Earthquake"]);
  ("Wind Gust", [:: "Lightning Bolt"; "Fireball"]);
  ("Lightning Bolt", [:: "Earthquake"; "Ice Shard"]);
  ("Earthquake", [:: "Fireball"; "Wind Gust"])
]%string.

Definition choices : seq string := keys game_rules.

(* for i, c in enumerate(self.choices, 1): print(f"  {i}. {c}") *)
Fixpoint print_menu (i : nat) (cs : seq string) : M unit :=
  match cs with
  | [::] => ret tt
  | c :: cs' =>
      print ("  " +s str_of_nat i +s ". " +s c) ;; print_menu i.+1 cs'
  end.

(* The try block: idx = int(choice) - 1, with ValueError (None) also when
   idx is out of range *)
Definition parse_idx (choice : string) : option Z :=
  if int choice is Some v then
    let idx := (v - 1)%Z in
    if (idx <? 0)%Z || (idx >=? Z.of_nat (size choices))%Z then None
    else Some idx
  else None.

(* One round of the `while True:` loop *)
Definition round : M (unit + EncounterOutcome) :=
  print (nl +s "Choose a spell:") ;;
  print_menu 1 choices ;;
  line <~ input "Enter number (1-5): " ;;
  let choice := strip line in
  match parse_idx choice with
  | None => print "Invalid selection. Try again." ;; ret (inl tt)
  | Some idx =>
      player <~ getitem choices (Z.to_nat idx) ;;
      wizard <~ random_choice choices ;;
      print ("You cast " +s player +s ". The Red Wizard casts " +s wizard +s ".") ;;
      if player == wizard then
        print "The spells clash evenly — the duel continues." ;;
        ret (inl tt)
      else
        beaten <~ dict_get game_rules player ;;
        if wizard \in beaten then
          print "Your spell overwhelms the Red Wizard — he is vanquished from this castle!" ;;
          ret (inr CONTINUE)
        else
          print "The Red Wizard's spell overpowers you — you are banished from this castle." ;;
          ret (inr END)
  end.

(* The `while True:` loop *)
Definition duel : M EncounterOutcome :=
  fun w => while_true (enough_fuel w) (fun _ => round) tt w.

Definition run_encounter : M EncounterOutcome :=
  print "A Red Wizard blocks your path and challenges you to a spell battle!" ;;
  print "Cast the correct spell to vanquish the wizard; if he wins, you are banished from this castle." ;;
  duel.

End RedWizard.

(* class Encounter(ABC) and its three subclasses: an instance carries no
   data of its own, so it is the name of its class. *)
Inductive encounter : Type := default_encounter | treasure_encounter | red_wizard.

Module Encounter.

Definition run_encounter (self : encounter) : M EncounterOutcome :=
  match self with
  | default_encounter => DefaultEncounter.run_encounter
  | treasure_encounter => TreasureEncounter.run_encounter
  | red_wizard => RedWizard.run_encounter
  end.

End Encounter.

(* --------------------------------------------------------------------- *)
(* class Room                                                             *)
(* --------------------------------------------------------------------- *)

(* Room defines no __eq__, so `==` and `in` compare rooms by identity:
   [room_id] stands for the identity of the object, different for
   different objects. *)
Record room : Type :=
  MkRoom { room_id : nat; name : string; room_encounter : encounter }.

Definition encounter_code (e : encounter) : nat :=
  match e with default_encounter => 0 | treasure_encounter => 1 | red_wizard => 2 end.

Definition encounter_decode (n : nat) : encounter :=
  match n with 0 => default_encounter | 1 => treasure_encounter | _ => red_wizard end.

Definition encounter_codeK : cancel encounter_code encounter_decode :=
  fun e => match e with
           | default_encounter => erefl
           | treasure_encounter => erefl
           | red_wizard => erefl
           end.

HB.instance Definition _ := Equality.copy encounter (can_type encounter_codeK).

Definition room_code (r : room) : nat * string * encounter :=
  (room_id r, name r, room_encounter r).

Definition room_decode (p : nat * string * encounter) : room :=
  MkRoom p.1.1 p.1.2 p.2.

Definition room_codeK : cancel room_code room_decode :=
  fun r => match r with MkRoom _ _ _ => erefl end.

HB.instance Definition _ := Equality.copy room (can_type room_codeK).

Module Room.

Definition visit_room (self : room) : M EncounterOutcome :=
  Encounter.run_encounter (room_encounter self).

End Room.

Definition castle_rooms : seq room := [::
  MkRoom 0 "Great Hall" default_encounter;
  MkRoom 1 "Armory" default_encounter;
  MkRoom 2 "North Tower" default_encounter;
  MkRoom 3 "Library" default_encounter;
  MkRoom 4 "Courtyard" default_encounter;
  MkRoom 5 "Throne Room" default_encounter;
  MkRoom 6 "Treasure Room" treasure_encounter;
  MkRoom 7 "The Red Wizard's Lair" red_wizard
].

(* --------------------------------------------------------------------- *)
(* class Castle                                                           *)
(* --------------------------------------------------------------------- *)

Record castle : Type := MkCastle { room_selector : selector room }.

Module Castle.

(* __init__(self, rooms=None) *)
Definition init (rooms : option (seq room)) : castle :=
  let rooms := if rooms is Some rs then rs else castle_rooms in
  MkCastle (RandomItemSelector.init rooms).

(* One round of the `while True:` loop of select_door *)
Definition door_round (num_doors : nat) (prompt : string) : M (unit + Z) :=
  line <~ input prompt ;;
  let choice := strip line in
  let invalid :=
    print ("Invalid selection. Enter a number between 1 and "
           +s str_of_nat num_doors +s ".") ;;
    ret (inl tt) in
  match int choice with
  | Some val =>
      if (1 <=? val)%Z && (val <=? Z.of_nat num_doors)%Z then
        print ("You open door " +s str_of_nat (Z.to_nat val) +s "..." +s nl) ;;
        ret (inr val)
      else invalid
  | None => invalid
  end.

(* The `while True:` loop of select_door *)
Definition door_loop (num_doors : nat) (prompt : string) : M Z :=
  fun w => while_true (enough_fuel w) (fun _ => door_round num_doors prompt) tt w.

Definition select_door : M Z :=
  num_doors <~ randint 2 4 ;;
  print (nl +s "You approach a corridor with " +s str_of_nat num_doors
         +s " closed doors.") ;;
  let prompt := "Select a door (1-" +s str_of_nat num_doors +s "): " in
  door_loop num_doors prompt.

Definition next_room (self : castle) : M (EncounterOutcome * castle) :=
  select_door ;;
  r <~ RandomItemSelector.pull_random_item (room_selector self) ;;
  let self := MkCastle r.2 in
  match r.1 with
  | None => print "No rooms available." ;; ret (END, self)
  | Some rm =>
      print ("You find yourself in the " +s name rm +s ".") ;;
      outcome <~ Room.visit_room rm ;;
      ret (outcome, self)
  end.

Definition reset (self : castle) : M castle :=
  let self := MkCastle (RandomItemSelector.reset (room_selector self)) in
  print "Castle rooms have been reset." ;;
  ret self.

End Castle.

(* == on EncounterOutcome *)
Definition outcome_code (o : EncounterOutcome) : bool :=
  if o is END then true else false.

Definition outcome_decode (b : bool) : EncounterOutcome :=
  if b then END else CONTINUE.

(* == on EncounterOutcome *)
Definition outcome_codeK : cancel outcome_code outcome_decode :=
  fun o => match o with CONTINUE => erefl | END => erefl end.

HB.instance Definition _ := Equality.copy EncounterOutcome (can_type outcome_codeK).

(* n calls of next_room in a row, with what each returned *)
Fixpoint visits (n : nat) (self : castle) : M (seq EncounterOutcome * castle) :=
  if n is n'.+1 then
    r <~ Castle.next_room self ;;
    rs <~ visits n' r.2 ;;
    ret (r.1 :: rs.1, rs.2)
  else ret ([::], self).

(* --------------------------------------------------------------------- *)
(* class Game                                                             *)
(* --------------------------------------------------------------------- *)

Record game : Type := MkGame { game_castle : castle }.

Module Game.

(* __init__(self, rooms=None) *)
Definition init (rooms : option (seq room)) : game :=
  MkGame (Castle.init rooms).

(* One round of the `while True:` loop of play_game: inl to go round
   again, inr after `break`. *)
Definition round (self : game) : M (game + game) :=
  r <~ Castle.next_room (game_castle self) ;;
  let outcome := r.1 in
  let self := MkGame r.2 in
  if outcome is END then
    c <~ Castle.reset (game_castle self) ;;
    let self := MkGame c in
    print "Game Over" ;;
    line <~ input "Would you like to explore a different castle? (y/n): " ;;
    let again := lower (strip line) in
    if startswith again "y" then
      print ("Starting a new exploration..." +s nl) ;;
      ret (inl self)
    else
      print "Thanks for playing!" ;;
      ret (inr self)
  else ret (inl self).

(* The `while True:` loop of play_game *)
Definition rounds (self : game) : M game :=
  fun w => while_true (enough_fuel w) round self w.

Definition play_game (self : game) : M game :=
  print "Welcome to the castle exploration game!" ;;
  print ("Objective: Navigate the castle rooms and search for the treasure." +s nl) ;;
  rounds self.

(* The answers that, in the spec's words, have the case-insensitive
   prefix y *)
Definition ci_prefix_y (answer : string) : bool :=
  match answer with
  | String c _ => Ascii.eqb c "y"%char || Ascii.eqb c "Y"%char
  | EmptyString => false
  end.

(* What the code tests: the answer stripped and lowered starts with y *)
Definition says_yes (answer : string) : bool :=
  startswith (lower (strip answer)) "y".

(* The replay rule read with the spec's test on the answer (its prefix,
   case-insensitive): after a visit that ends the game, the round goes on
   for an answer with prefix y and leaves the loop for any other, with
   the castle in the state of a new one over the same rooms. *)
Definition replay_on_prefix_y : Prop :=
  forall (self : game) (w w1 : world) (c1 : castle)
         (answer : string) (rest : seq string),
    Castle.next_room (game_castle self) w = Ok (END, c1) w1 ->
    stdin w1 = answer :: rest ->
    exists (g : game) (w2 : world),
      [/\ game_castle g = Castle.init (Some (items (room_selector c1))),
          stdin w2 = rest
        & round self w = Ok (if ci_prefix_y answer then inl g else inr g) w2].

End Game.

(* --------------------------------------------------------------------- *)
(* rpsls.py                                                               *)
(* --------------------------------------------------------------------- *)

Module rpsls.

(* (winner, loser): reason *)
Definition RULES : dict (string * string)%type string := [::
  (("scissors", "lizard"), "Scissors decapitate lizard");
  (("scissors", "paper"), "Scissors cuts paper");
  (("paper", "rock"), "Paper covers rock");
  (("rock", "lizard"), "Rock crushes lizard");
  (("lizard", "spock"), "Lizard poisons Spock");
  (("spock", "scissors"), "Spock smashes scissors");
  (("lizard", "paper"), "Lizard eats paper");
  (("paper", "spock"), "Paper disproves Spock");
  (("spock", "rock"), "Spock vaporizes rock");
  (("rock", "scissors"), "Rock crushes scissors")
]%string.

Definition CHOICES : seq string :=
  [:: "rock"; "paper"; "scissors"; "lizard"; "spock"]%string.

Definition get_computer_choice : M string := random_choice CHOICES.

Definition determine_winner (user computer : string) : M (string * string) :=
  if user == computer then ret ("tie", "It's a tie!")%string
  else if dict_mem (user, computer) RULES then
    reason <~ dict_get RULES (user, computer) ;; ret ("win"%string, reason)
  else if dict_mem (computer, user) RULES then
    reason <~ dict_get RULES (computer, user) ;; ret ("lose"%string, reason)
  else ret ("error", "Unexpected result.")%string.

(* for idx, choice in enumerate(CHOICES, 1): print(f"{idx}. {choice.capitalize()}") *)
Fixpoint print_menu (idx : nat) (cs : seq string) : M unit :=
  match cs with
  | [::] => ret tt
  | choice :: cs' =>
      print (str_of_nat idx +s ". " +s capitalize choice) ;;
      print_menu idx.+1 cs'
  end.

(* One round of the `while True:` loop of get_user_choice; ValueError is
   what int() raises, and the only exception caught *)
Definition choice_round : M (unit + string) :=
  line <~ input "Enter number (1-5): " ;;
  let invalid := print "Invalid input. Please try again." ;; ret (inl tt) in
  match int line with
  | Some selection =>
      if (1 <=? selection)%Z && (selection <=? 5)%Z then
        c <~ getitem CHOICES (Z.to_nat (selection - 1)) ;; ret (inr c)
      else invalid
  | None => invalid
  end.

Definition choice_loop : M string :=
  fun w => while_true (enough_fuel w) (fun _ => choice_round) tt w.

Definition get_user_choice : M string :=
  print "Choose one:" ;;
  print_menu 1 CHOICES ;;
  choice_loop.

(* One round of the `while True:` loop of main: inl to go round again,
   inr after `break` *)
Definition round : M (unit + unit) :=
  user_choice <~ get_user_choice ;;
  computer_choice <~ get_computer_choice ;;
  print (nl +s "You chose: " +s capitalize user_choice) ;;
  print ("Computer chose: " +s capitalize computer_choice) ;;
  r <~ determine_winner user_choice computer_choice ;;
  let: (result, reason) := r in
  print reason ;;
  (if result == "win"%string then print ("You win!" +s nl)
   else if result == "lose"%string then print ("You lose!" +s nl)
   else print ("It's a tie!" +s nl)) ;;
  line <~ input "Play again? (y/n): " ;;
  let play_again := lower (strip line) in
  if play_again != "y"%string then
    print "Thanks for playing!" ;; ret (inr tt)
  else ret (inl tt).

Definition rounds : M unit :=
  fun w => while_true (enough_fuel w) (fun _ => round) tt w.

Definition main : M unit :=
  print "Welcome to Rock Paper Scissors Lizard Spock!" ;;
  rounds.

End rpsls.

(* ===================================================================== *)
(* Theorems                                                              *)
(* ===================================================================== *)

(* --------------------------------------------------------------------- *)
(* Facts about the monad and the list primitives                          *)
(* --------------------------------------------------------------------- *)

Lemma getitem_nth A (x0 : A) (l : seq A) (i : nat) (w : world) :
  i < size l -> getitem l i w = Ok (nth x0 l i) w.
Proof. by elim: l i => [|x l IH] [|i] //= Hi; apply: IH. Qed.

Lemma random_choice_nth A (x0 : A) (l : seq A) (w : world) :
  0 < size l ->
  random_choice l w
  = Ok (nth x0 l (random_bits w (random_pos w) %% size l)) (tick w).
Proof.
move=> Hl; rewrite /random_choice /nilp eqn0Ngt Hl /= /bind /randbelow.
by rewrite (getitem_nth x0) // ltn_mod.
Qed.

Section SelectorFacts.
Variable T : eqType.
Implicit Types (s : selector T) (w : world) (x : T).
Import RandomItemSelector.

Lemma refill_items s l : items (refill s l).1 = items s.
Proof. by rewrite /refill; case: ifP. Qed.

Lemma available_lt s i : i \in available_indices s -> i < size (items s).
Proof. by rewrite mem_filter mem_iota add0n => /andP [_ /andP [_ ->]]. Qed.

Lemma refill_nonempty s :
  items s != [::] -> (refill s (available_indices s)).2 != [::].
Proof.
rewrite /refill; case: ifP => [_|/nilP /eqP //].
by case: (items s).
Qed.

Lemma refill_lt s i :
  i \in (refill s (available_indices s)).2 -> i < size (items s).
Proof.
rewrite /refill; case: ifP => _ /=; last exact: available_lt.
by rewrite mem_iota add0n => /andP [_ ->].
Qed.

Lemma chosen_index_mem s w :
  items s != [::] -> chosen_index s w \in (refill s (available_indices s)).2.
Proof.
move=> /refill_nonempty Hne; apply: mem_nth.
by rewrite ltn_mod lt0n size_eq0.
Qed.

Lemma pull_nonempty s w (x0 : T) :
  items s != [::] ->
  pull_random_item s w
  = Ok (Some (nth x0 (items s) (chosen_index s w)),
        Selector (items s)
          (rcons (used_items (refill s (available_indices s)).1)
                 (nth x0 (items s) (chosen_index s w))))
       (tick w).
Proof.
move=> Hne; rewrite /pull_random_item.
have -> : nilp (items s) = false by apply/negbTE; rewrite /nilp size_eq0.
have Hi := refill_lt (chosen_index_mem w Hne).
move: Hi (refill_nonempty Hne) (@refill_items s (available_indices s)).
rewrite /chosen_index; case: (refill _ _) => s' c /= Hi Hc Hs'.
rewrite /bind (random_choice_nth 0) ?lt0n ?size_eq0 // Hs' (getitem_nth x0) //.
Qed.


(* An index is counted as used when the value at that position of the
   pool is found in used_items (the converse needs distinct values). *)
Lemma used_indices_nth s (x0 : T) i :
  i \in used_indices s -> nth x0 (items s) i \in used_items s.
Proof.
case/mapP => y; rewrite mem_filter => /andP [Hy Hu] ->.
by rewrite nth_index.
Qed.

Lemma nth_used_indices s (x0 : T) i :
  uniq (items s) -> i < size (items s) ->
  nth x0 (items s) i \in used_items s -> i \in used_indices s.
Proof.
move=> Hun Hi Hu; apply/mapP; exists (nth x0 (items s) i).
  by rewrite mem_filter mem_nth.
by rewrite index_uniq.
Qed.

Lemma available_nil_subset s :
  available_indices s = [::] -> {subset items s <= used_items s}.
Proof.
move=> Hnil x Hx.
have Hi : index x (items s) < size (items s) by rewrite index_mem.
have: index x (items s) \notin available_indices s by rewrite Hnil.
rewrite mem_filter mem_iota add0n leq0n Hi /= andbT negbK.
by move/(used_indices_nth x); rewrite nth_index.
Qed.

Lemma within_cycle_available s :
  uniq (items s) -> within_cycle s -> size (used_items s) < size (items s) ->
  available_indices s != [::].
Proof.
move=> Hun /andP [Huu _] Hlt; apply/eqP => /available_nil_subset Hsub.
by have := uniq_leq_size Hun Hsub; rewrite leqNgt Hlt.
Qed.

Lemma pull_within_cycle s w (x0 : T) :
  uniq (items s) -> within_cycle s -> size (used_items s) < size (items s) ->
  let x := nth x0 (items s) (chosen_index s w) in
  [/\ pull_random_item s w
       = Ok (Some x, Selector (items s) (rcons (used_items s) x)) (tick w),
      x \in items s, x \notin used_items s
    & within_cycle (Selector (items s) (rcons (used_items s) x))].
Proof.
move=> Hun Hin Hlt x.
have Hne : items s != [::] by rewrite -size_eq0 -lt0n (leq_ltn_trans _ Hlt).
have Hav := within_cycle_available Hun Hin Hlt.
have Hmem := chosen_index_mem w Hne.
have Hi := refill_lt Hmem.
have Hx : x \in items s by rewrite mem_nth.
have Hnu : x \notin used_items s.
  move: Hmem; rewrite /refill /nilp size_eq0 (negbTE Hav) /=.
  rewrite mem_filter => /andP [Hnot _].
  by apply: contra Hnot; apply: nth_used_indices.
split=> //.
  by rewrite (pull_nonempty w x0 Hne) /refill /nilp size_eq0 (negbTE Hav).
case/andP: Hin => Huu Hall.
by rewrite /within_cycle /= rcons_uniq Hnu Huu all_rcons Hx Hall.
Qed.

End SelectorFacts.

Section SelectorCycle.
Variable T : eqType.
Implicit Types (s : selector T) (w : world) (x : T).
Import RandomItemSelector.

Lemma init_eq (its : seq T) : init its = Selector its [::].
Proof. by case: its. Qed.

Lemma pull_n_within_cycle k s w :
  uniq (items s) -> within_cycle s ->
  size (used_items s) + k <= size (items s) ->
  exists ds : seq T,
    [/\ size ds = k,
        pull_n k s w
        = Ok ([seq Some x | x <- ds], Selector (items s) (used_items s ++ ds))
             (iter k tick w)
      & within_cycle (Selector (items s) (used_items s ++ ds))].
Proof.
elim: k s w => [|k IH] s w Hun Hin Hle.
  by exists [::]; rewrite /= ?cats0; split=> //; case: s Hin {Hun Hle}.
have Hlt : size (used_items s) < size (items s).
  by apply: leq_trans Hle; rewrite addnS ltnS leq_addr.
have x0 : T by case: (items s) Hlt => [|x0 ?].
have [Hpull _ _ Hin'] := pull_within_cycle w x0 Hun Hin Hlt.
set x := nth x0 _ _ in Hpull Hin'.
have [|ds [Hsz Hds Hinv]] :=
  IH (Selector (items s) (rcons (used_items s) x)) (tick w) Hun Hin'.
  by rewrite /= size_rcons addSn -addnS.
exists (x :: ds); split; rewrite /= ?Hsz -?cat_rcons //.
by rewrite /bind Hpull /= Hds /= -iterSr.
Qed.

Lemma exhausted_available s :
  uniq (items s) -> within_cycle s -> size (items s) <= size (used_items s) ->
  available_indices s = [::].
Proof.
move=> Hun /andP [Huu /allP Hsub] Hle.
have [_ Heq] := uniq_min_size Huu Hsub Hle.
apply/eqP; rewrite -size_eq0 size_filter -leqn0 leqNgt -has_count.
apply/hasPn => i; rewrite mem_iota add0n negbK => /andP [_ Hi].
have x0 : T by case: (items s) Hi.
by apply: (nth_used_indices (x0 := x0)) => //; rewrite Heq mem_nth.
Qed.

Lemma within_cycle_submultiset s :
  within_cycle s -> submultiset (used_items s) (items s).
Proof.
case/andP => Huu /allP Hsub; apply/allP => x Hx.
by rewrite (count_uniq_mem _ Huu) Hx -has_count has_pred1; apply: Hsub.
Qed.

(* On a pool of distinct values a call of pull_random_item, with or
   without the reset on exhaustion, keeps used_items within the pool. *)
Lemma pull_keeps_within_cycle s w :
  uniq (items s) -> within_cycle s ->
  exists r s' w',
    [/\ pull_random_item s w = Ok (r, s') w', items s' = items s
      & within_cycle s'].
Proof.
move=> Hun Hin.
case Hnil: (nilp (items s)).
  exists None, (Selector (items s) [::]), w.
  by rewrite /pull_random_item Hnil.
have Hne : items s != [::] by rewrite -size_eq0; move/negbT: Hnil.
have x0 : T by case: (items s) Hne.
case: (ltnP (size (used_items s)) (size (items s))) => Hsz.
  have [Hp _ _ Hin'] := pull_within_cycle w x0 Hun Hin Hsz.
  by do 3!eexists; split; first exact: Hp.
have Hav := exhausted_available Hun Hin Hsz.
do 3!eexists; split; first exact: (pull_nonempty w x0 Hne).
  by [].
rewrite /within_cycle /refill Hav /= andbT mem_nth //.
exact: (refill_lt (chosen_index_mem w Hne)).
Qed.

(** X5: over a pool of pairwise-distinct values, whatever add_item (of
    values the pool does not hold yet), pull_random_item and reset are
    called, no call raises, the pool stays distinct and used_items stays
    a sub-multiset of items. *)
Lemma distinct_pool_used_submultiset (os : seq (op T)) s w :
  uniq (items s) -> within_cycle s -> adds_fresh os (items s) ->
  exists s' w',
    [/\ run_ops os s w = Ok s' w', uniq (items s')
      & submultiset (used_items s') (items s')].
Proof.
elim: os s w => [|o os IH] s w Hun Hin.
  by move=> _; exists s, w; split=> //; apply: within_cycle_submultiset.
case: o => [x||] /=.
- case/andP => Hx Hfr; rewrite /bind /=; apply: IH => //=.
    by rewrite rcons_uniq Hx.
  case/andP: Hin => Huu /allP Hsub; rewrite /within_cycle /= Huu /=.
  by apply/allP => y /Hsub; rewrite mem_rcons inE => ->; rewrite orbT.
- move=> Hfr; have [r [s' [w' [Hp Hit Hin']]]] := pull_keeps_within_cycle w Hun Hin.
  by rewrite /bind Hp /=; apply: IH; rewrite ?Hit.
- by move=> Hfr; rewrite /bind /=; apply: IH.
Qed.

End SelectorCycle.

Section SelectorClaims.
Variable T : eqType.
Implicit Types (s : selector T) (w : world) (x : T).
Import RandomItemSelector.

(** C3: a selector built from N pairwise-distinct items returns, in N
    calls of pull_random_item in a row and whatever the random source,
    each item exactly once; the call after that finds no index available,
    clears used_items within the call and returns one of the values
    already returned. *)
Theorem no_repeat_until_exhaustion (its : seq T) (w : world) :
  uniq its ->
  exists (rs : seq (option T)) (s' : selector T) (w' : world),
    [/\ pull_n (size its) (init its) w = Ok (rs, s') w',
        perm_eq rs [seq Some x | x <- its],
        uniq rs
      & its != [::] ->
        exists (x : T) (s'' : selector T) (w'' : world),
          [/\ available_indices s' = [::],
              pull_random_item s' w' = Ok (Some x, s'') w'',
              Some x \in rs
            & used_items s'' = [:: x]]].
Proof.
move=> Hun; rewrite init_eq.
have [//|//|ds [Hsz Hds /andP [Huds /allP Hsub]]] :=
  @pull_n_within_cycle T (size its) (Selector its [::]) w Hun.
rewrite /= in Hds Huds Hsub.
have [_ Heq] := uniq_min_size Huds Hsub (eq_leq (esym Hsz)).
have Hperm : perm_eq ds its by apply: uniq_perm.
exists [seq Some x | x <- ds], (Selector its ds), (iter (size its) tick w).
split=> //; first exact: perm_map.
  by rewrite map_inj_uniq // => a b [].
move=> Hne.
have Hin : within_cycle (Selector its ds).
  by rewrite /within_cycle /= Huds; apply/allP.
have Hav : available_indices (Selector its ds) = [::].
  by apply: exhausted_available => //=; rewrite Hsz.
have x0 : T by case: (its) Hne.
set w' := iter _ _ _.
set x := nth x0 its (chosen_index (Selector its ds) w').
exists x, (Selector its [:: x]), (tick w').
split=> //.
  by rewrite (pull_nonempty w' x0) //= /refill Hav.
apply: map_f; rewrite Heq mem_nth //.
exact: (@refill_lt _ (Selector its ds) _ (chosen_index_mem w' _)).
Qed.

(** C7: on a selector whose pool is empty, pull_random_item returns None
    without raising and leaves used_items empty, on the first call and
    on every later one. *)
Theorem empty_pool_returns_none s w (n : nat) :
  items s = [::] ->
  pull_random_item s w = Ok (None, Selector [::] [::]) w
  /\ pull_n n.+1 s w = Ok (nseq n.+1 None, Selector [::] [::]) w.
Proof.
move=> Hnil.
have Hone s0 : items s0 = [::] ->
    pull_random_item s0 w = Ok (None, Selector [::] [::]) w.
  by rewrite /pull_random_item => ->.
split; first exact: Hone.
rewrite /= /bind (Hone _ Hnil) /=.
suff -> : @pull_n T n (Selector [::] [::]) w
          = Ok (nseq n None, Selector [::] [::]) w by [].
by elim: n => [|n IH] //=; rewrite /bind /pull_random_item /= IH.
Qed.

(** C8: reset() on a selector that has drawn nothing changes nothing,
    two resets in a row are one reset, and reset() never touches items;
    so whatever is called afterwards behaves the same. *)
Theorem reset_idempotent (its : seq T) s (os : seq (op T)) w :
  [/\ reset (init its) = init its
      /\ reset (Selector its [::]) = Selector its [::],
      reset (reset s) = reset s,
      items (reset s) = items s,
      run_ops os (reset (Selector its [::])) w = run_ops os (Selector its [::]) w
    & run_ops os (reset (reset s)) w = run_ops os (reset s) w].
Proof. by split. Qed.

(** C9: on a selector whose pool is not empty, the list of indices handed
    to random.choice is never empty (when no index is available the used
    list is cleared and every position is offered), so pull_random_item
    does not raise, does not return None, and returns a value of the
    pool. *)
Theorem pull_returns_pool_item s w :
  items s != [::] ->
  exists (x : T) (s' : selector T) (w' : world),
    [/\ (refill s (available_indices s)).2 != [::],
        pull_random_item s w = Ok (Some x, s') w',
        x \in items s
      & items s' = items s].
Proof.
move=> Hne; have x0 : T by case: (items s) Hne.
exists (nth x0 (items s) (chosen_index s w)); do 2!eexists.
split; [exact: refill_nonempty | exact: pull_nonempty | | by []].
by rewrite mem_nth // (refill_lt (chosen_index_mem w Hne)).
Qed.

End SelectorClaims.

Lemma no_repeat_until_exhaustion_witness :
  uniq [:: "a"; "b"; "c"]%string
  /\ exists rs s' w',
       RandomItemSelector.pull_n 3
         (RandomItemSelector.init [:: "a"; "b"; "c"]%string)
         (SenseClueGenerator.new [::] (fun k => k)) = Ok (rs, s') w'
       /\ perm_eq rs [:: Some "a"; Some "b"; Some "c"]%string.
Proof.
split; first by [].
have [//|rs [s' [w' [H1 H2 _ _]]]] :=
  @no_repeat_until_exhaustion _ [:: "a"; "b"; "c"]%string
     (SenseClueGenerator.new [::] (fun k => k)).
by exists rs, s', w'.
Defined.

Lemma empty_pool_returns_none_witness :
  items (RandomItemSelector.init ([::] : seq string)) = [::]
  /\ RandomItemSelector.pull_n 3 (RandomItemSelector.init ([::] : seq string))
       (SenseClueGenerator.new [::] (fun k => k))
     = Ok ([:: None; None; None], Selector [::] [::])
          (SenseClueGenerator.new [::] (fun k => k)).
Proof.
split; first by [].
exact: (proj2 (@empty_pool_returns_none string
          (RandomItemSelector.init [::])
          (SenseClueGenerator.new [::] (fun k => k)) 2 (erefl _))).
Defined.

Lemma pull_returns_pool_item_witness :
  items (RandomItemSelector.init [:: "a"; "b"]%string) != [::]
  /\ exists x s' w',
       RandomItemSelector.pull_random_item
         (RandomItemSelector.init [:: "a"; "b"]%string)
         (SenseClueGenerator.new [::] (fun k => k)) = Ok (Some x, s') w'
       /\ x \in [:: "a"; "b"]%string.
Proof.
split; first by [].
have [//|x [s' [w' [_ H1 H2 _]]]] :=
  @pull_returns_pool_item _ (RandomItemSelector.init [:: "a"; "b"]%string)
     (SenseClueGenerator.new [::] (fun k => k)).
by exists x, s', w'.
Defined.

(** C1: three calls of pull_random_item on a selector over
    ["A", "A", "B"], with a random source that always picks the first
    index on offer, return "A" three times and "B" never: used values are
    looked up again with items.index, which finds only the first "A", so
    the second position is never struck off. *)
Theorem duplicate_values_drawn_three_times :
  let w := SenseClueGenerator.new [::] (fun _ => 0) in
  exists rs s' w',
    [/\ RandomItemSelector.pull_n 3
          (RandomItemSelector.init [:: "A"; "A"; "B"]%string) w = Ok (rs, s') w',
        rs = [:: Some "A"; Some "A"; Some "A"]%string,
        count_mem (Some "A"%string) rs = 3
      & count_mem (Some "B"%string) rs = 0].
Proof. by do 3!eexists; split; [vm_compute; reflexivity | | |]. Qed.

(** C2: after three calls of pull_random_item on a selector over
    ["A", "A", "B"], with a random source that always picks the first
    index on offer, used_items is ["A", "A", "A"]: it holds "A" three
    times and the pool only twice, so it is not a sub-multiset of items. *)
Theorem used_items_exceed_pool :
  let w := SenseClueGenerator.new [::] (fun _ => 0) in
  let Pull := RandomItemSelector.Pull string in
  exists s' w',
    [/\ RandomItemSelector.run_ops [:: Pull; Pull; Pull]
          (RandomItemSelector.init [:: "A"; "A"; "B"]%string) w = Ok s' w',
        items s' = [:: "A"; "A"; "B"]%string,
        used_items s' = [:: "A"; "A"; "A"]%string
      & RandomItemSelector.submultiset (used_items s') (items s') = false].
Proof. by do 2!eexists; split; [vm_compute; reflexivity | | |]. Qed.


(* --------------------------------------------------------------------- *)
(* The two rule tables                                                    *)
(* --------------------------------------------------------------------- *)

(* x \in [:: a; b; ...] in hypothesis H: one goal for each element *)
Ltac each_member H :=
  rewrite !inE in H; repeat (case/orP: H => H); move/eqP: H => H; subst.

(** C4: for each of the 20 ordered pairs of different choices,
    determine_winner returns win or lose, never the error fallback, and
    swapping the two players swaps win and lose and keeps the reason. *)
Theorem rpsls_complete (x y : string) (w : world) :
  x \in rpsls.CHOICES -> y \in rpsls.CHOICES -> x != y ->
  exists reason : string,
    (rpsls.determine_winner x y w = Ok ("win"%string, reason) w
     /\ rpsls.determine_winner y x w = Ok ("lose"%string, reason) w)
    \/ (rpsls.determine_winner x y w = Ok ("lose"%string, reason) w
        /\ rpsls.determine_winner y x w = Ok ("win"%string, reason) w).
Proof.
move=> Hx Hy; each_member Hx; each_member Hy => // _;
  eexists; by [left; split; vm_compute | right; split; vm_compute].
Qed.

Lemma rpsls_complete_witness :
  [/\ "rock"%string \in rpsls.CHOICES, "scissors"%string \in rpsls.CHOICES
    & "rock"%string != "scissors"%string]
  /\ exists reason : string,
      (rpsls.determine_winner "rock" "scissors" (SenseClueGenerator.new [::] (fun k => k))
       = Ok ("win"%string, reason) (SenseClueGenerator.new [::] (fun k => k))
     /\ rpsls.determine_winner "scissors" "rock" (SenseClueGenerator.new [::] (fun k => k))
       = Ok ("lose"%string, reason) (SenseClueGenerator.new [::] (fun k => k)))
    \/ (rpsls.determine_winner "rock" "scissors" (SenseClueGenerator.new [::] (fun k => k))
       = Ok ("lose"%string, reason) (SenseClueGenerator.new [::] (fun k => k))
     /\ rpsls.determine_winner "scissors" "rock" (SenseClueGenerator.new [::] (fun k => k))
       = Ok ("win"%string, reason) (SenseClueGenerator.new [::] (fun k => k))).
Proof.
split; first by [].
exact: (@rpsls_complete "rock" "scissors" _ (erefl _) (erefl _) (erefl _)).
Defined.

(** C10: the spell table is a tournament on the 5 spells. Every spell
    beats exactly 2 others, and of two different spells exactly one is in
    the other's list, so a duel between different spells is won or
    lost, never both, never neither. *)
Theorem spell_table_tournament (p q : string) :
  p \in RedWizard.choices -> q \in RedWizard.choices -> p != q ->
  exists bp bq : seq string,
    [/\ dict_find RedWizard.game_rules p = Some bp,
        dict_find RedWizard.game_rules q = Some bq,
        [/\ size bp = 2, uniq bp, p \notin bp
          & all [in RedWizard.choices] bp]
      & (q \in bp) (+) (p \in bq)].
Proof.
move=> Hp Hq; each_member Hp; each_member Hq => // _;
  by do 2!eexists; split; [vm_compute; reflexivity | vm_compute; reflexivity | |].
Qed.

Lemma spell_table_tournament_witness :
  [/\ "Fireball"%string \in RedWizard.choices,
      "Earthquake"%string \in RedWizard.choices
    & "Fireball"%string != "Earthquake"%string]
  /\ exists bp bq : seq string,
      [/\ dict_find RedWizard.game_rules "Fireball"%string = Some bp,
          dict_find RedWizard.game_rules "Earthquake"%string = Some bq,
          [/\ size bp = 2, uniq bp, "Fireball"%string \notin bp
            & all [in RedWizard.choices] bp]
        & ("Earthquake"%string \in bp) (+) ("Fireball"%string \in bq)].
Proof.
split; first by [].
exact: (@spell_table_tournament "Fireball" "Earthquake"
          (erefl _) (erefl _) (erefl _)).
Defined.

(* --------------------------------------------------------------------- *)
(* The loops end: every round reads a line                                *)
(* --------------------------------------------------------------------- *)

Section Consumes.
Variables (A B : Type).

Lemma consumes_ret (a : A) : consumes 0 (ret a).
Proof. by move=> w; rewrite /= addn0. Qed.

Lemma consumes_raise (e : exn) : consumes 0 (@raise A e).
Proof. by []. Qed.

Lemma consumes_bind (k1 k2 : nat) (m : M A) (f : A -> M B) :
  consumes k1 m -> (forall a, consumes k2 (f a)) -> consumes (k1 + k2) (bind m f).
Proof.
move=> Hm Hf w; rewrite /bind; case: (m w) (Hm w) => // a w1 H1.
case: (f a w1) (Hf a w1) => // b w2 H2.
by rewrite [k1 + k2]addnC addnA; apply: leq_trans H1; rewrite leq_add2r.
Qed.

Lemma consumes_weaken (k : nat) (m : M A) : consumes k m -> consumes 0 m.
Proof.
move=> Hm w; case: (m w) (Hm w) => // a w' H.
by rewrite addn0 (leq_trans _ H) // leq_addr.
Qed.

End Consumes.

Lemma consumes_print (s : string) : consumes 0 (print s).
Proof. by move=> w; rewrite /= addn0. Qed.

Lemma consumes_input (prompt : string) : consumes 1 (input prompt).
Proof. by move=> w; rewrite /input; case: (stdin w) => //= l ls; rewrite addn1. Qed.

Lemma consumes_randbelow (n : nat) : consumes 0 (randbelow n).
Proof. by move=> w; rewrite /= addn0. Qed.

Lemma consumes_getitem A (s : seq A) (i : nat) : consumes 0 (getitem s i).
Proof.
by elim: s i => [|x s IH] [|i] //=; exact: consumes_ret.
Qed.

Create HintDb consumes.
#[local] Hint Resolve consumes_ret consumes_raise consumes_print
  consumes_randbelow consumes_getitem : consumes.

(* Goals of the form `consumes 0 m`, by the shape of m *)
Ltac consume0 :=
  repeat match goal with
  | |- consumes 0 (bind _ _) => apply: (@consumes_bind _ _ 0 0)
  | |- forall _, _ => intro
  | |- consumes 0 (if _ then _ else _) => case: ifP => _
  | |- consumes 0 (match ?x with _ => _ end) => destruct x
  | |- consumes 0 _ => solve [auto with consumes]
  end.

Lemma consumes_random_choice A (s : seq A) : consumes 0 (random_choice s).
Proof. by rewrite /random_choice; consume0. Qed.

Lemma consumes_randint (a b : nat) : consumes 0 (randint a b).
Proof. by rewrite /randint; consume0. Qed.

Lemma consumes_dict_get (K : eqType) V (d : dict K V) (k : K) :
  consumes 0 (dict_get d k).
Proof. by rewrite /dict_get; consume0. Qed.

#[local] Hint Resolve consumes_random_choice consumes_randint
  consumes_dict_get : consumes.

Lemma consumes_pull (T : eqType) (s : selector T) :
  consumes 0 (RandomItemSelector.pull_random_item s).
Proof.
rewrite /RandomItemSelector.pull_random_item.
by case: (RandomItemSelector.refill _ _) => s' avail; consume0.
Qed.

#[local] Hint Resolve consumes_pull : consumes.

Lemma consumes_while S A (body : S -> M (S + A)) (fuel : nat) (s : S) (w : world) :
  (forall s0, consumes 1 (body s0)) -> size (stdin w) < fuel ->
  match while_true fuel body s w return Prop with
  | Ok _ w' => size (stdin w') + 1 <= size (stdin w)
  | Raise _ => True
  | OutOfFuel => False
  end.
Proof.
move=> Hbody; elim: fuel s w => [|fuel IH] s w //= Hlt.
case: (body s w) (Hbody s w) => // [[s'|a]] w' H1 //.
have Hlt' : size (stdin w') < fuel.
  by rewrite -addn1; apply: leq_trans H1 _; rewrite -ltnS.
case: (while_true fuel body s' w') (IH s' w' Hlt') => // a w'' H2.
by apply: leq_trans H1; apply: leq_trans H2 _; exact: leq_addr.
Qed.

Lemma consumes_set_clue (s : selector string) :
  consumes 0 (SenseClueGenerator.set_clue_selector s).
Proof. by move=> w; rewrite /= addn0. Qed.

Lemma consumes_set_sense (s : selector string) :
  consumes 0 (SenseClueGenerator.set_sense_selector s).
Proof. by move=> w; rewrite /= addn0. Qed.

#[local] Hint Resolve consumes_set_clue consumes_set_sense : consumes.

Lemma consumes_pull_clue : consumes 0 SenseClueGenerator.pull_clue.
Proof.
move=> w.
have H : consumes 0 (r <~ RandomItemSelector.pull_random_item (clue_selector w) ;;
                     SenseClueGenerator.set_clue_selector r.2 ;; ret r.1).
  by consume0.
exact: H w.
Qed.

Lemma consumes_pull_sense : consumes 0 SenseClueGenerator.pull_sense.
Proof.
move=> w.
have H : consumes 0 (r <~ RandomItemSelector.pull_random_item (sense_selector w) ;;
                     SenseClueGenerator.set_sense_selector r.2 ;; ret r.1).
  by consume0.
exact: H w.
Qed.

#[local] Hint Resolve consumes_pull_clue consumes_pull_sense : consumes.

Lemma consumes_sense_clue : consumes 0 SenseClueGenerator.get_senseclue.
Proof. by rewrite /SenseClueGenerator.get_senseclue; consume0. Qed.

Lemma consumes_print_menu (i : nat) (cs : seq string) :
  consumes 0 (RedWizard.print_menu i cs).
Proof. by elim: cs i => [|c cs IH] i /=; consume0. Qed.

#[local] Hint Resolve consumes_sense_clue consumes_print_menu : consumes.

Lemma consumes_duel_round : consumes 1 RedWizard.round.
Proof.
rewrite /RedWizard.round.
apply: (@consumes_bind _ _ 0 1); first exact: consumes_print.
move=> _; apply: (@consumes_bind _ _ 0 1); first exact: consumes_print_menu.
move=> _; apply: (@consumes_bind _ _ 1 0); first exact: consumes_input.
by move=> line; consume0.
Qed.

Lemma consumes_duel : consumes 1 RedWizard.duel.
Proof.
move=> w; apply: consumes_while; last exact: ltnSn.
by move=> _; exact: consumes_duel_round.
Qed.

Lemma consumes_run_encounter (e : encounter) :
  consumes 0 (Encounter.run_encounter e).
Proof.
case: e; rewrite /Encounter.run_encounter.
- by rewrite /DefaultEncounter.run_encounter; consume0.
- by rewrite /TreasureEncounter.run_encounter; consume0.
rewrite /RedWizard.run_encounter; consume0.
exact: consumes_weaken consumes_duel.
Qed.

Lemma consumes_select_door : consumes 1 Castle.select_door.
Proof.
rewrite /Castle.select_door.
apply: (@consumes_bind _ _ 0 1); first exact: consumes_randint.
move=> n; apply: (@consumes_bind _ _ 0 1); first exact: consumes_print.
move=> _ w; apply: consumes_while; last exact: ltnSn.
move=> _; rewrite /Castle.door_round.
apply: (@consumes_bind _ _ 1 0); first exact: consumes_input.
by move=> line; consume0.
Qed.

Lemma consumes_next_room (c : castle) : consumes 1 (Castle.next_room c).
Proof.
rewrite /Castle.next_room.
apply: (@consumes_bind _ _ 1 0); first exact: consumes_select_door.
move=> _; consume0; rewrite /Room.visit_room; exact: consumes_run_encounter.
Qed.

Lemma consumes_game_round (g : game) : consumes 1 (Game.round g).
Proof.
rewrite /Game.round.
apply: (@consumes_bind _ _ 1 0); first exact: consumes_next_room.
move=> r; rewrite /Castle.reset; consume0.
exact: consumes_weaken (consumes_input _).
Qed.

(* The loops never run out of fuel: they return or raise (EOFError at
   the end of the input). *)
Lemma duel_total (w : world) : RedWizard.duel w <> OutOfFuel.
Proof. by move=> H; have := consumes_duel w; rewrite H. Qed.

Lemma rounds_total (g : game) (w : world) : Game.rounds g w <> OutOfFuel.
Proof.
move=> H.
have := @consumes_while _ _ Game.round (enough_fuel w) g w consumes_game_round (ltnSn _).
by rewrite -/(Game.rounds g w) H.
Qed.

Lemma play_game_total (g : game) (w : world) : Game.play_game g w <> OutOfFuel.
Proof.
rewrite /Game.play_game /bind /=.
exact: rounds_total.
Qed.

Lemma while_true_step S A (body : S -> M (S + A)) (fuel : nat) (s : S) (w : world) :
  while_true fuel.+1 body s w
  = match body s w with
    | Ok (inl s') w' => while_true fuel body s' w'
    | Ok (inr a) w' => Ok a w'
    | Raise e => Raise e
    | OutOfFuel => OutOfFuel
    end.
Proof. by []. Qed.

Lemma while_true_fuel S A (body : S -> M (S + A)) (f1 f2 : nat) (s : S) (w : world) :
  (forall s0, consumes 1 (body s0)) ->
  size (stdin w) < f1 -> size (stdin w) < f2 ->
  while_true f1 body s w = while_true f2 body s w.
Proof.
move=> Hbody; elim: f1 f2 s w => [|f1 IH] [|f2] s w //= H1 H2.
case: (body s w) (Hbody s w) => // [[s'|a]] w' Hw //.
by apply: IH; rewrite -addn1; apply: leq_trans Hw _; rewrite -ltnS.
Qed.

(* --------------------------------------------------------------------- *)
(* The spell duel                                                         *)
(* --------------------------------------------------------------------- *)

Lemma parse_idx_range (choice : string) (idx : Z) :
  RedWizard.parse_idx choice = Some idx ->
  Z.to_nat idx < size RedWizard.choices.
Proof.
rewrite /RedWizard.parse_idx; case: (int choice) => // v.
case: ifP => // /negbT; rewrite negb_or => /andP [/negbTE H0 /negbTE H5] [<-].
move: H0 H5; rewrite Z.geb_leb => /Z.ltb_ge H0 /Z.leb_gt H5.
by apply/ltP; move: H5 => /=; lia.
Qed.

Lemma round_valid_choice (w : world) (line : string) (rest : seq string) (idx : Z) :
  stdin w = line :: rest ->
  RedWizard.parse_idx (strip line) = Some idx ->
  let player := nth EmptyString RedWizard.choices (Z.to_nat idx) in
  let wizard := nth EmptyString RedWizard.choices
                    (random_bits w (random_pos w) %% size RedWizard.choices) in
  let beaten := odflt [::] (dict_find RedWizard.game_rules player) in
  exists w' : world,
    [/\ RedWizard.round w
        = Ok (if player == wizard then inl tt
              else if wizard \in beaten then inr CONTINUE else inr END) w',
        stdin w' = rest
      & random_pos w' = (random_pos w).+1].
Proof.
case: w => i o bits pos cs ss /= -> Hparse.
have := parse_idx_range Hparse.
have Hrc w0 := @random_choice_nth _ EmptyString RedWizard.choices w0 isT.
rewrite /RedWizard.round /bind.
move: Hrc; set rc := random_choice RedWizard.choices => Hrc.
rewrite /= Hparse.
move: (Z.to_nat idx) => n; case: n => [|[|[|[|[|n]]]]] // _.
all: rewrite /= Hrc /=.
all: have: bits pos %% 5 < 5 by rewrite ltn_mod.
all: move: (bits pos %% 5) => k; case: k => [|[|[|[|[|k]]]]] // _.
all: by eexists; split; [vm_compute; reflexivity | |].
Qed.

Lemma duel_valid_choice (w : world) (line : string) (rest : seq string) (idx : Z) :
  stdin w = line :: rest ->
  RedWizard.parse_idx (strip line) = Some idx ->
  let player := nth EmptyString RedWizard.choices (Z.to_nat idx) in
  let wizard := nth EmptyString RedWizard.choices
                    (random_bits w (random_pos w) %% size RedWizard.choices) in
  let beaten := odflt [::] (dict_find RedWizard.game_rules player) in
  exists w' : world,
    [/\ stdin w' = rest,
        random_pos w' = (random_pos w).+1,
        RedWizard.round w
        = Ok (if player == wizard then inl tt
              else if wizard \in beaten then inr CONTINUE else inr END) w'
      & RedWizard.duel w
        = if player == wizard then RedWizard.duel w'
          else Ok (if wizard \in beaten then CONTINUE else END) w'].
Proof.
move=> Hin Hparse player wizard beaten.
have [w' [Hr Hst Hpos]] := round_valid_choice Hin Hparse.
exists w'; split=> //.
rewrite /RedWizard.duel /enough_fuel Hin Hst while_true_step Hr.
by case: ifP => // _; case: ifP.
Qed.

(** C5: in a round of the spell duel where the player's line is a valid
    choice, whatever the wizard draws: equal spells make the loop go round
    again (the next round prompts anew) with no outcome; otherwise the
    encounter returns CONTINUE when the wizard's spell is in the list of
    those the player's spell beats, and END when it is not. This holds of
    the first round of run_encounter and of every round of its loop. *)
Theorem spell_duel_outcome (w : world) (line : string) (rest : seq string) (idx : Z) :
  stdin w = line :: rest ->
  RedWizard.parse_idx (strip line) = Some idx ->
  let player := nth EmptyString RedWizard.choices (Z.to_nat idx) in
  let wizard := nth EmptyString RedWizard.choices
                    (random_bits w (random_pos w) %% size RedWizard.choices) in
  let beaten := odflt [::] (dict_find RedWizard.game_rules player) in
  let outcome := if wizard \in beaten then CONTINUE else END in
  exists w1 w2 : world,
    [/\ stdin w1 = rest /\ random_pos w1 = (random_pos w).+1,
        stdin w2 = rest /\ random_pos w2 = (random_pos w).+1,
        RedWizard.round w
        = Ok (if player == wizard then inl tt else inr outcome) w1,
        RedWizard.duel w
        = (if player == wizard then RedWizard.duel w1 else Ok outcome w1)
      & RedWizard.run_encounter w
        = (if player == wizard then RedWizard.duel w2 else Ok outcome w2)].
Proof.
move=> Hin Hparse player wizard beaten outcome.
have [w1 [Hst1 Hpos1 Hr Hd]] := duel_valid_choice Hin Hparse.
pose w0 := World (stdin w)
  (rcons (rcons (stdout w)
     "A Red Wizard blocks your path and challenges you to a spell battle!")
     "Cast the correct spell to vanquish the wizard; if he wins, you are banished from this castle.")%string
  (random_bits w) (random_pos w) (clue_selector w) (sense_selector w).
have [w2 [Hst2 Hpos2 _ Hd2]] := @duel_valid_choice w0 line rest idx Hin Hparse.
exists w1, w2; split=> //.
by rewrite Hr /outcome; case: ifP => // _; case: ifP.
Qed.

Lemma spell_duel_outcome_witness :
  let w := SenseClueGenerator.new [:: "1"%string] (fun _ => 1) in
  [/\ stdin w = [:: "1"%string]
    & RedWizard.parse_idx (strip "1") = Some 0%Z]
  /\ exists w', RedWizard.duel w = Ok CONTINUE w'.
Proof.
split; first by [].
have [w1 [w2 [_ _ _ H _]]] :=
  @spell_duel_outcome (SenseClueGenerator.new [:: "1"%string] (fun _ => 1))
     "1"%string [::] 0%Z (erefl _) (erefl _).
by exists w1; rewrite H.
Defined.

(* --------------------------------------------------------------------- *)
(* The game loop                                                          *)
(* --------------------------------------------------------------------- *)

(* Without strip() the code's test would be the spec's. *)
Lemma lowered_prefix_y (answer : string) :
  startswith (lower answer) "y" = Game.ci_prefix_y answer.
Proof.
case: answer => [|c s] //=; rewrite /startswith /=.
have -> : String.prefix EmptyString (lower s) = true by case: (lower s).
by case: c => [[] [] [] [] [] [] [] []]; vm_compute.
Qed.

(** C6 (as the code has it): when the visit of a room ends the game, the
    castle is reset and the player is asked whether to go on. An answer
    that starts with y or Y once the white space around it is stripped
    makes the loop go round again, on the same castle, which the reset
    has put in the state of a new one over the same rooms (used_items
    empty); any other answer leaves the loop. *)
Theorem game_over_replay (self : game) (w w1 : world) (c1 : castle)
    (answer : string) (rest : seq string) :
  Castle.next_room (game_castle self) w = Ok (END, c1) w1 ->
  stdin w1 = answer :: rest ->
  let self' := MkGame (MkCastle (RandomItemSelector.reset (room_selector c1))) in
  exists w2 : world,
    [/\ [/\ stdin w2 = rest,
            stdout w2
            = stdout w1 ++
              [:: "Castle rooms have been reset."; "Game Over";
                  "Would you like to explore a different castle? (y/n): ";
                  if Game.says_yes answer then "Starting a new exploration..." +s nl
                  else "Thanks for playing!"]%string
          & game_castle self' = Castle.init (Some (items (room_selector c1)))],
        Game.round self w = Ok (if Game.says_yes answer then inl self' else inr self') w2
      & Game.rounds self w
        = if Game.says_yes answer then Game.rounds self' w2 else Ok self' w2].
Proof.
move=> Hnext Hin self'.
have Hfresh : game_castle self' = Castle.init (Some (items (room_selector c1))).
  by rewrite /Castle.init init_eq.
have [w2 [Hr Hst Hout]] : exists w2 : world,
    [/\ Game.round self w
        = Ok (if Game.says_yes answer then inl self' else inr self') w2,
        stdin w2 = rest
      & stdout w2
        = stdout w1 ++
          [:: "Castle rooms have been reset."; "Game Over";
              "Would you like to explore a different castle? (y/n): ";
              if Game.says_yes answer then "Starting a new exploration..." +s nl
              else "Thanks for playing!"]%string].
  rewrite /Game.round /bind Hnext /= Hin /= /Game.says_yes.
  by case: (startswith _ _) => /=; eexists; split; try reflexivity;
     rewrite /= -?cats1 -?catA /=.
exists w2; split=> //.
rewrite [LHS]/Game.rounds /enough_fuel while_true_step Hr.
case: (Game.says_yes answer) Hr => // Hr.
apply: while_true_fuel; [exact: consumes_game_round | | exact: ltnSn].
by have := consumes_game_round self w; rewrite Hr addn1.
Qed.

Lemma game_over_replay_witness :
  let g0 := Game.init (Some [:: MkRoom 6 "Treasure Room" treasure_encounter]) in
  let w0 := SenseClueGenerator.new [:: "1"; " Yes"]%string (fun _ => 0) in
  exists c1 w1 w2,
    [/\ Castle.next_room (game_castle g0) w0 = Ok (END, c1) w1,
        stdin w1 = [:: " Yes"%string]
      & Game.round g0 w0
        = Ok (inl (MkGame (MkCastle (RandomItemSelector.reset (room_selector c1))))) w2].
Proof.
move=> g0 w0.
have [c1 [w1 [Hn Hs]]] : exists c1 w1,
    Castle.next_room (game_castle g0) w0 = Ok (END, c1) w1
    /\ stdin w1 = [:: " Yes"%string].
  by do 2!eexists; split; [vm_compute; reflexivity |].
have [w2 [_ Hr _]] := @game_over_replay g0 w0 w1 c1 " Yes"%string [::] Hn Hs.
by exists c1, w1, w2.
Defined.

(* The answer " y", with a blank before the y, does not have the prefix
   y; after a visit of the treasure room the round goes on all the same. *)
Lemma replay_on_prefix_y_fails :
  [/\ Game.ci_prefix_y " y" = false,
      exists c1 w1,
        Castle.next_room
          (game_castle (Game.init (Some [:: MkRoom 6 "Treasure Room" treasure_encounter])))
          (SenseClueGenerator.new [:: "1"; " y"]%string (fun _ => 0))
        = Ok (END, c1) w1
        /\ stdin w1 = [:: " y"%string],
      exists g w2,
        Game.round
          (Game.init (Some [:: MkRoom 6 "Treasure Room" treasure_encounter]))
          (SenseClueGenerator.new [:: "1"; " y"]%string (fun _ => 0))
        = Ok (inl g) w2
    & ~ Game.replay_on_prefix_y].
Proof.
pose g0 := Game.init (Some [:: MkRoom 6 "Treasure Room" treasure_encounter]).
pose w0 := SenseClueGenerator.new [:: "1"; " y"]%string (fun _ => 0).
have Hnext : exists c1 w1,
    Castle.next_room (game_castle g0) w0 = Ok (END, c1) w1
    /\ stdin w1 = [:: " y"%string].
  by do 2!eexists; split; [vm_compute; reflexivity |].
have Hround : exists g w2, Game.round g0 w0 = Ok (inl g) w2.
  by do 2!eexists; vm_compute; reflexivity.
split=> // H.
have [c1 [w1 [Hn Hs]]] := Hnext.
have [g [w2 [_ _]]] := H g0 w0 w1 c1 " y"%string [::] Hn Hs.
by have [g' [w2' ->]] := Hround.
Qed.

(* ===================================================================== *)
(* Further properties of the code                                         *)
(* ===================================================================== *)

Section SelectorMore.
Variable T : eqType.
Implicit Types (s : selector T) (w : world) (x : T).
Import RandomItemSelector.

(** X1: over a pool of pairwise-distinct values, the indices on offer
    are exactly the positions whose value has not been drawn since the
    last reset. *)
Theorem available_indices_distinct s (x0 : T) (i : nat) :
  uniq (items s) ->
  (i \in available_indices s)
  = (i < size (items s)) && (nth x0 (items s) i \notin used_items s).
Proof.
move=> Hun; rewrite mem_filter mem_iota add0n leq0n /= andbC.
case Hi: (i < size (items s)) => //=; congr (~~ _).
apply/idP/idP; first exact: used_indices_nth.
exact: nth_used_indices.
Qed.

(** X2: add_item appends the value to the pool and leaves used_items
    alone; the new position is on offer at once, unless the value was
    drawn before while the pool did not hold it. *)
Theorem add_item_available s x :
  [/\ items (add_item s x) = rcons (items s) x,
      used_items (add_item s x) = used_items s
    & (size (items s) \in available_indices (add_item s x))
      = (x \in items s) || (x \notin used_items s)].
Proof.
split=> //.
rewrite mem_filter mem_iota add0n leq0n /= size_rcons ltnSn andbT.
have Hlt y : y \in items s -> index y (rcons (items s) x) < size (items s).
  by move=> Hy; rewrite -cats1 index_cat Hy index_mem.
case Hx: (x \in items s) => /=.
  apply/mapP => -[y]; rewrite mem_filter mem_rcons inE => /andP [Hy _] Hi.
  have /Hlt : y \in items s by case/orP: Hy => // /eqP ->.
  by rewrite -Hi ltnn.
congr (~~ _); apply/mapP/idP => [[y]|Hu].
  rewrite mem_filter mem_rcons inE => /andP [Hy Hyu] Hi.
  case/orP: Hy => [/eqP <- //|/Hlt].
  by rewrite -Hi ltnn.
exists x; first by rewrite mem_filter mem_rcons inE eqxx.
by rewrite /= -cats1 index_cat Hx /= eqxx addn0.
Qed.

Lemma pull_n_add (a b : nat) s w :
  pull_n (a + b) s w
  = (r1 <~ pull_n a s ;; r2 <~ pull_n b r1.2 ;; ret (r1.1 ++ r2.1, r2.2)) w.
Proof.
elim: a s w => [|a IH] s w.
  by rewrite add0n /bind /=; case: (pull_n b s w) => // -[].
rewrite addSn /= /bind; case: (pull_random_item s w) => // r w1.
by rewrite IH /bind; case: (pull_n a r.2 w1) => // r1 w2 /=; case: (pull_n b _ _).
Qed.

Lemma one_cycle s w :
  items s != [::] -> cycle_start s ->
  exists ds : seq T,
    [/\ pull_n (size (items s)) s w
        = Ok ([seq Some x | x <- ds], Selector (items s) ds)
             (iter (size (items s)) tick w),
        perm_eq ds (items s)
      & cycle_start (Selector (items s) ds)].
Proof.
move=> Hne [Hun Hin Hst].
have Hdone ds : size ds = size (items s) ->
    within_cycle (Selector (items s) ds) ->
    perm_eq ds (items s) /\ cycle_start (Selector (items s) ds).
  move=> Hsz Hw; case/andP: (Hw) => /= Hu /allP Hsub.
  have [_ Heq] := uniq_min_size Hu Hsub (eq_leq (esym Hsz)).
  by split; [apply: uniq_perm | split=> //=; right; rewrite Hsz].
case: Hst => [Hnil|Hfull].
  have [|ds [Hsz Hp Hw]] := @pull_n_within_cycle T (size (items s)) s w Hun Hin.
    by rewrite Hnil.
  move: Hp Hw; rewrite Hnil /= => Hp Hw.
  by have [? ?] := Hdone ds Hsz Hw; exists ds.
have x0 : T by case: (items s) Hne.
have Hav := exhausted_available Hun Hin Hfull.
have Hp := pull_nonempty w x0 Hne.
set x := nth x0 _ _ in Hp; move: Hp; rewrite /refill Hav /= => Hp.
have Hx : x \in items s.
  by rewrite mem_nth // (refill_lt (chosen_index_mem w Hne)).
case HN: (size (items s)) => [|n]; first by move: Hne; rewrite -size_eq0 HN.
have [||ds [Hsz Hpn Hw]] :=
  @pull_n_within_cycle T n (Selector (items s) [:: x]) (tick w) Hun.
- by rewrite /within_cycle /= Hx.
- by rewrite /= add1n HN.
move: Hpn Hw => /= Hpn Hw.
have [|? ?] := Hdone (x :: ds) _ Hw; first by rewrite /= Hsz HN.
by exists (x :: ds); split=> //; rewrite /= /bind Hp /= Hpn /= -iterSr.
Qed.

Lemma cycles_from_start s (k : nat) w :
  items s != [::] -> cycle_start s ->
  exists (rs : seq (option T)) (s' : selector T) (w' : world),
    [/\ pull_n (k * size (items s)) s w = Ok (rs, s') w',
        size rs = k * size (items s)
      & all (fun c => perm_eq c [seq Some x | x <- items s])
            (reshape (nseq k (size (items s))) rs)].
Proof.
elim: k s w => [|k IH] s w Hne Hst; first by exists [::], s, w.
have [ds [Hp Hperm Hst']] := one_cycle w Hne Hst.
have [rs [s' [w' [Hrs Hsz Hall]]]] :=
  IH (Selector (items s) ds) (iter (size (items s)) tick w) Hne Hst'.
exists ([seq Some x | x <- ds] ++ rs), s', w'.
have Hds : size [seq Some x | x <- ds] = size (items s).
  by rewrite size_map (perm_size Hperm).
split.
- by rewrite mulSn pull_n_add /bind Hp /= Hrs.
- by rewrite size_cat Hds Hsz mulSn.
by rewrite /= -Hds take_size_cat // drop_size_cat // perm_map //= Hds.
Qed.

(** X3: after reset() (so also on a new selector), over a non-empty pool
    of pairwise-distinct values and whatever the random source, the
    draws fall into cycles: each run of N draws in a row, N the size of
    the pool, returns every item exactly once. *)
Theorem every_cycle_is_a_permutation s (k : nat) w :
  uniq (items s) -> items s != [::] ->
  exists (rs : seq (option T)) (s' : selector T) (w' : world),
    [/\ pull_n (k * size (items s)) (reset s) w = Ok (rs, s') w',
        size rs = k * size (items s)
      & all (fun c => perm_eq c [seq Some x | x <- items s])
            (reshape (nseq k (size (items s))) rs)].
Proof.
move=> Hun Hne.
have Hst : cycle_start (reset s) by split=> //; left.
exact: (@cycles_from_start (reset s) k w Hne Hst).
Qed.

Lemma pull_world s w :
  exists (r : option T) (s' : selector T),
    [/\ pull_random_item s w
        = Ok (r, s') (if nilp (items s) then w else tick w),
        items s' = items s
      & if r is Some x then x \in items s else nilp (items s)].
Proof.
case Hnil: (nilp (items s)).
  by exists None, (Selector (items s) [::]); rewrite /pull_random_item Hnil.
have Hne : items s != [::] by rewrite -size_eq0; move/negbT: Hnil.
have x0 : T by case: (items s) Hne.
do 2!eexists; split; [exact: (pull_nonempty w x0 Hne) | by [] |].
by rewrite /= mem_nth // (refill_lt (chosen_index_mem w Hne)).
Qed.

(** X4: pull_random_item never raises and never changes the pool; it
    takes one raw draw from the random source when the pool is not empty
    and none when it is, and leaves the rest of the process alone. *)
Theorem pull_takes_one_draw s w :
  exists (r : option T) (s' : selector T),
    [/\ pull_random_item s w
        = Ok (r, s') (if nilp (items s) then w else tick w),
        items s' = items s
      & (r == None) = nilp (items s)].
Proof.
have [r [s' [Hp Hit Hr]]] := pull_world s w.
exists r, s'; split=> //.
case: r Hr {Hp} => [x|->] //= Hx.
by apply/esym/negbTE; rewrite /nilp size_eq0; apply/eqP => H; rewrite H in Hx.
Qed.

End SelectorMore.

(* --------------------------------------------------------------------- *)
(* What the calls return, and that nothing but EOFError is raised          *)
(* --------------------------------------------------------------------- *)

Section Returns.
Variables (A B : Type).

Lemma returns_ret (P : A -> Prop) (a : A) : P a -> returns P (ret a).
Proof. by move=> Ha w. Qed.

Lemma returns_bind (P : A -> Prop) (Q : B -> Prop) (m : M A) (f : A -> M B) :
  returns P m -> (forall a, P a -> returns Q (f a)) -> returns Q (bind m f).
Proof.
move=> Hm Hf w; rewrite /bind; case: (m w) (Hm w) => // a w1 Ha.
exact: Hf.
Qed.

Lemma returns_weaken (P Q : A -> Prop) (m : M A) :
  (forall a, P a -> Q a) -> returns P m -> returns Q m.
Proof. by move=> HPQ Hm w; case: (m w) (Hm w) => // a w1; apply: HPQ. Qed.

End Returns.

Lemma returns_print (s : string) : returns (fun _ => True) (print s).
Proof. by []. Qed.

Lemma returns_input (prompt : string) : returns (fun _ => True) (input prompt).
Proof. by move=> w; rewrite /input; case: (stdin w). Qed.

Lemma returns_randbelow (n : nat) :
  0 < n -> returns (fun i => i < n) (randbelow n).
Proof. by move=> Hn w; rewrite /= ltn_mod. Qed.

Lemma returns_randint (a b : nat) :
  returns (fun v => a <= v <= a + (b - a)) (randint a b).
Proof.
apply: (@returns_bind _ _ (fun i => i < (b - a).+1)); first exact: returns_randbelow.
by move=> i Hi; apply: returns_ret; rewrite leq_addr leq_add2l.
Qed.

Lemma returns_getitem (T : eqType) (s : seq T) (i : nat) :
  i < size s -> returns [in s] (getitem s i).
Proof.
elim: s i => [|x s IH] [|i] //= Hi; first by apply: returns_ret; rewrite inE eqxx.
by apply: returns_weaken (IH i Hi) => y Hy; rewrite inE Hy orbT.
Qed.

Lemma returns_random_choice (T : eqType) (s : seq T) :
  0 < size s -> returns [in s] (random_choice s).
Proof.
move=> Hs; rewrite /random_choice /nilp eqn0Ngt Hs /=.
apply: returns_bind (returns_randbelow Hs) _ => i Hi.
exact: returns_getitem.
Qed.

Lemma returns_pull (T : eqType) (s : selector T) :
  returns (fun r => items r.2 = items s
                    /\ if r.1 is Some x then x \in items s else items s = [::])
          (RandomItemSelector.pull_random_item s).
Proof.
move=> w; case Hnil: (nilp (items s)).
  by rewrite /RandomItemSelector.pull_random_item Hnil /=; move/nilP: Hnil.
have Hne : items s != [::] by rewrite -size_eq0; move/negbT: Hnil.
have x0 : T by case: (items s) Hne.
rewrite (pull_nonempty w x0 Hne) /=; split=> //.
by rewrite mem_nth // (refill_lt (chosen_index_mem w Hne)).
Qed.

Lemma returns_while_inv S A (I : S -> Prop) (P : A -> Prop)
    (body : S -> M (S + A)) (fuel : nat) (s : S) (w : world) :
  (forall s0, consumes 1 (body s0)) ->
  (forall s0, I s0 ->
     returns (fun r => match r with inl s' => I s' | inr a => P a end) (body s0)) ->
  I s -> size (stdin w) < fuel ->
  match while_true fuel body s w return Prop with
  | Ok a _ => P a
  | Raise e => e = EOFError
  | OutOfFuel => False
  end.
Proof.
move=> Hc Hr; elim: fuel s w => [|fuel IH] s w Hs //= Hlt.
case: (body s w) (Hc s w) (Hr s Hs w) => // [[s'|a]] w' H1 // Hs'.
by apply: IH => //; rewrite -addn1; apply: leq_trans H1 _; rewrite -ltnS.
Qed.

Lemma returns_while S A (P : A -> Prop) (body : S -> M (S + A))
    (fuel : nat) (s : S) (w : world) :
  (forall s0, consumes 1 (body s0)) ->
  (forall s0, returns (fun r => if r is inr a then P a else True) (body s0)) ->
  size (stdin w) < fuel ->
  match while_true fuel body s w return Prop with
  | Ok a _ => P a
  | Raise e => e = EOFError
  | OutOfFuel => False
  end.
Proof.
by move=> Hc Hr; apply: (@returns_while_inv _ _ (fun _ => True)).
Qed.

Create HintDb returns.
#[local] Hint Resolve returns_print returns_input : returns.

(* Goals of the form `returns (fun _ => True) m`, by the shape of m *)
Ltac returns0 :=
  repeat match goal with
  | |- returns _ (bind _ _) => apply: (@returns_bind _ _ (fun _ => True)) => [|? _]
  | |- returns _ (if _ then _ else _) => case: ifP => _
  | |- returns _ (match ?x with _ => _ end) => destruct x
  | |- returns _ (ret _) => exact: returns_ret
  | |- returns _ _ => solve [auto with returns]
  end.

Lemma returns_pull0 (T : eqType) (s : selector T) :
  returns (fun _ => True) (RandomItemSelector.pull_random_item s).
Proof. exact: returns_weaken (returns_pull s). Qed.

#[local] Hint Resolve returns_pull0 : returns.

Lemma returns_sense_clue : returns (fun _ => True) SenseClueGenerator.get_senseclue.
Proof.
have Hc : returns (fun _ => True) SenseClueGenerator.pull_clue.
  move=> w.
  have H : returns (fun _ => True)
      (r <~ RandomItemSelector.pull_random_item (clue_selector w) ;;
       SenseClueGenerator.set_clue_selector r.2 ;; ret r.1).
    by returns0.
  exact: H w.
have Hs : returns (fun _ => True) SenseClueGenerator.pull_sense.
  move=> w.
  have H : returns (fun _ => True)
      (r <~ RandomItemSelector.pull_random_item (sense_selector w) ;;
       SenseClueGenerator.set_sense_selector r.2 ;; ret r.1).
    by returns0.
  exact: H w.
rewrite /SenseClueGenerator.get_senseclue.
apply: returns_bind Hc _ => clue _; apply: returns_bind Hs _ => sense _.
by returns0.
Qed.

Lemma returns_red_menu (i : nat) (cs : seq string) :
  returns (fun _ => True) (RedWizard.print_menu i cs).
Proof. by elim: cs i => [|c cs IH] i /=; returns0. Qed.

Lemma dict_find_keys (K : eqType) V (d : dict K V) (k : K) :
  k \in keys d -> exists v, dict_find d k = Some v.
Proof.
elim: d => [|[k' v'] d IH] //=; rewrite inE eq_sym.
by case: eqP => [_ _|_ /IH //]; exists v'.
Qed.

Lemma returns_duel_round : returns (fun _ => True) RedWizard.round.
Proof.
rewrite /RedWizard.round.
apply: returns_bind (returns_print _) _ => _ _.
apply: returns_bind (returns_red_menu _ _) _ => _ _.
apply: returns_bind (returns_input _) _ => line _.
case Hp: (RedWizard.parse_idx _) => [idx|]; last by returns0.
apply: returns_bind (returns_getitem (parse_idx_range Hp)) _ => player Hpl.
apply: (returns_bind (@returns_random_choice _ RedWizard.choices isT)) => wizard _.
apply: returns_bind (returns_print _) _ => _ _.
case: ifP => _; first by returns0.
have [beaten Hb] := dict_find_keys Hpl.
by rewrite /dict_get Hb; returns0.
Qed.

Lemma returns_run_encounter (e : encounter) :
  returns (fun _ => True) (Encounter.run_encounter e).
Proof.
case: e; rewrite /Encounter.run_encounter.
- rewrite /DefaultEncounter.run_encounter.
  by apply: returns_bind returns_sense_clue _ => out _; returns0.
- by rewrite /TreasureEncounter.run_encounter; returns0.
rewrite /RedWizard.run_encounter.
apply: returns_bind (returns_print _) _ => _ _.
apply: returns_bind (returns_print _) _ => _ _ w.
apply: returns_while (ltnSn _) => _; first exact: consumes_duel_round.
by apply: returns_weaken returns_duel_round => -[].
Qed.

Lemma returns_door_round (n : nat) (prompt : string) :
  returns (fun r => if r is inr v then (1 <= v <= Z.of_nat n)%Z else True)
          (Castle.door_round n prompt).
Proof.
rewrite /Castle.door_round.
apply: returns_bind (returns_input _) _ => line _.
case: (int _) => [v|]; last by returns0.
case: ifP => [/andP [/Z.leb_le H1 /Z.leb_le H2]|_]; last by returns0.
by apply: returns_bind (returns_print _) _ => _ _; apply: returns_ret.
Qed.

Lemma consumes_door_round (n : nat) (prompt : string) :
  consumes 1 (Castle.door_round n prompt).
Proof.
rewrite /Castle.door_round.
apply: (@consumes_bind _ _ 1 0); first exact: consumes_input.
by move=> line; consume0.
Qed.


(* --------------------------------------------------------------------- *)
(* The doors                                                              *)
(* --------------------------------------------------------------------- *)

Lemma door_loop_step (n : nat) (prompt : string) (w : world)
    (line : string) (rest : seq string) :
  stdin w = line :: rest ->
  Castle.door_loop n prompt w
  = match Castle.door_round n prompt w with
    | Ok (inl _) w' => Castle.door_loop n prompt w'
    | Ok (inr v) w' => Ok v w'
    | Raise e => Raise e
    | OutOfFuel => OutOfFuel
    end.
Proof.
move=> Hin; rewrite /Castle.door_loop /enough_fuel Hin while_true_step.
rewrite /Castle.door_round /bind /input Hin /=.
by case: (int _) => [v|] //=; case: ifP.
Qed.

Lemma door_loop_skips (n : nat) (prompt : string) (w : world)
    (line : string) (rest : seq string) :
  stdin w = line :: rest -> ~~ numbered 1 (Z.of_nat n) (strip line) ->
  Castle.door_loop n prompt w
  = Castle.door_loop n prompt
      (with_console rest
         [:: prompt;
             "Invalid selection. Enter a number between 1 and "
             +s str_of_nat n +s "."] w).
Proof.
move=> Hin Hbad; rewrite (door_loop_step _ _ Hin).
move: Hbad; rewrite /Castle.door_round /bind /input Hin /numbered /=.
case: (int _) => [v|] /=; first move/negbTE => -> /=.
all: by rewrite /with_console -!cats1 -!catA.
Qed.

Lemma door_loop_takes (n : nat) (prompt : string) (w : world)
    (line : string) (rest : seq string) (v : Z) :
  stdin w = line :: rest -> int (strip line) = Some v ->
  (1 <= v <= Z.of_nat n)%Z ->
  Castle.door_loop n prompt w
  = Ok v (with_console rest
            [:: prompt; "You open door " +s str_of_nat (Z.to_nat v) +s "..." +s nl] w).
Proof.
move=> Hin Hv [/Z.leb_le H1 /Z.leb_le H2]; rewrite (door_loop_step _ _ Hin).
rewrite /Castle.door_round /bind /input Hin /= Hv H1 H2 /=.
by rewrite /with_console -!cats1 -!catA.
Qed.

Lemma door_loop_first_valid (n : nat) (prompt : string) (w : world)
    (bad : seq string) (good : string) (rest : seq string) (v : Z) :
  stdin w = bad ++ good :: rest ->
  all (fun l => ~~ numbered 1 (Z.of_nat n) (strip l)) bad ->
  int (strip good) = Some v -> (1 <= v <= Z.of_nat n)%Z ->
  Castle.door_loop n prompt w
  = Ok v (with_console rest
            (flatten [seq [:: prompt;
                              "Invalid selection. Enter a number between 1 and "
                              +s str_of_nat n +s "."] | _ <- bad]
             ++ [:: prompt; "You open door " +s str_of_nat (Z.to_nat v)
                             +s "..." +s nl]) w).
Proof.
move=> Hin Hbad Hv Hrange.
elim: bad w Hbad Hin => [|l bad IH] w.
  by move=> _ Hin; rewrite (door_loop_takes _ Hin Hv Hrange).
rewrite [all _ _]/= [_ ++ _]/= => /andP [Hl Hbad] Hin.
rewrite (door_loop_skips _ Hin Hl) IH //.
by rewrite /with_console /= -!catA.
Qed.

Lemma select_door_loop (w : world) :
  let n := 2 + random_bits w (random_pos w) %% 3 in
  Castle.select_door w
  = Castle.door_loop n ("Select a door (1-" +s str_of_nat n +s "): ")
      (with_console (stdin w)
         [:: nl +s "You approach a corridor with " +s str_of_nat n
             +s " closed doors."] (tick w)).
Proof.
rewrite /Castle.select_door /bind /randint /bind /randbelow /ret /print.
by rewrite /with_console /= cats1.
Qed.


Lemma returns_select_door (w : world) :
  match Castle.select_door w return Prop with
  | Ok v _ => (1 <= v <= Z.of_nat (2 + random_bits w (random_pos w) %% 3))%Z
  | Raise e => e = EOFError
  | OutOfFuel => False
  end.
Proof.
rewrite /Castle.select_door /bind /randint /bind /randbelow /ret /print.
apply: returns_while (ltnSn _) => _; first exact: consumes_door_round.
exact: returns_door_round.
Qed.

(** X7: whatever is typed, select_door returns a door number between 1
    and the number of doors it announced (2 to 4), or raises EOFError
    when the input ends; it raises nothing else. *)
Theorem select_door_in_range (w : world) :
  match Castle.select_door w return Prop with
  | Ok v _ => (1 <= v <= Z.of_nat (2 + random_bits w (random_pos w) %% 3))%Z
              /\ (1 <= v <= 4)%Z
  | Raise e => e = EOFError
  | OutOfFuel => False
  end.
Proof.
case: (Castle.select_door w) (returns_select_door w) => // v _ H; split=> //.
have: random_bits w (random_pos w) %% 3 < 3 by rewrite ltn_mod.
by move/ltP; move: H; rewrite -plusE; lia.
Qed.

(* --------------------------------------------------------------------- *)
(* The sentences                                                          *)
(* --------------------------------------------------------------------- *)

(* What get_senseclue does to the process: one call of pull_random_item
   on each selector, the clue first. *)
Lemma get_senseclue_pulls (w : world) :
  exists (clue sense : option string) (cs ss : selector string),
    [/\ SenseClueGenerator.get_senseclue w
        = Ok (if SenseClueGenerator.truthy clue && SenseClueGenerator.truthy sense
              then odflt EmptyString sense +s " " +s odflt EmptyString clue
              else odflt EmptyString
                     (SenseClueGenerator.or_else
                        (SenseClueGenerator.or_else clue sense) (Some EmptyString)))
             (World (stdin w) (stdout w) (random_bits w)
                    (random_pos w + ~~ nilp (items (clue_selector w))
                                  + ~~ nilp (items (sense_selector w)))
                    cs ss),
        items cs = items (clue_selector w) /\ items ss = items (sense_selector w),
        if clue is Some c then c \in items (clue_selector w)
        else nilp (items (clue_selector w))
      & if sense is Some s then s \in items (sense_selector w)
        else nilp (items (sense_selector w))].
Proof.
case: w => i o bits pos cs0 ss0 /=.
rewrite /SenseClueGenerator.get_senseclue /bind.
rewrite /SenseClueGenerator.pull_clue /bind /=.
set w0 := World _ _ _ _ _ _.
have [clue [cs [-> Hcs Hclue]]] := pull_world cs0 w0.
rewrite /= /SenseClueGenerator.pull_sense /bind.
set w1 := World _ _ _ _ _ _.
have [sense [ss [Hp Hss Hsense]]] := pull_world ss0 w1.
exists clue, sense, cs, ss; split=> //.
have -> : sense_selector w1 = ss0 by rewrite /w1; case: (nilp _).
rewrite Hp {Hp} /w1 /w0; case: (nilp (items cs0)); case: (nilp (items ss0)) => /=.
all: by rewrite ?addn0 ?addn1; case: ifP.
Qed.

(** X8: when both selectors of the generator hold sentences and none of
    them is the empty string, get_senseclue returns a sentence of the
    sense pool, one blank and a sentence of the clue pool, takes two raw
    draws and leaves the console alone. *)
Theorem get_senseclue_combines (w : world) :
  items (clue_selector w) != [::] -> items (sense_selector w) != [::] ->
  EmptyString \notin items (clue_selector w) ->
  EmptyString \notin items (sense_selector w) ->
  exists (c s : string) (w' : world),
    [/\ SenseClueGenerator.get_senseclue w = Ok (s +s " " +s c) w',
        c \in items (clue_selector w) /\ s \in items (sense_selector w),
        random_pos w' = (random_pos w).+2
      & stdin w' = stdin w /\ stdout w' = stdout w].
Proof.
move=> Hc Hs Hec Hes.
have [clue [sense [cs [ss [Hg _ Hclue Hsense]]]]] := get_senseclue_pulls w.
move: Hg Hclue Hsense; rewrite /nilp !size_eq0 (negbTE Hc) (negbTE Hs) /=.
case: clue => // c; case: sense => // s Hg Hcin Hsin.
have Hc0 : c != EmptyString by apply: contraNneq Hec => <-.
have Hs0 : s != EmptyString by apply: contraNneq Hes => <-.
move: Hg; rewrite /= Hc0 Hs0 /= => Hg.
by exists c, s; eexists; split; [exact: Hg | | rewrite /= !addn1 |].
Qed.

(** X9: when one of the two selectors of the generator has an empty pool,
    get_senseclue returns a bare sentence of the other pool, with no
    blank added, or the empty string; it never raises. *)
Theorem get_senseclue_fallback (w : world) :
  nilp (items (clue_selector w)) || nilp (items (sense_selector w)) ->
  exists (out : string) (w' : world),
    [/\ SenseClueGenerator.get_senseclue w = Ok out w',
        out \in EmptyString :: items (clue_selector w) ++ items (sense_selector w)
      & nilp (items (clue_selector w)) && nilp (items (sense_selector w)) ->
        out = EmptyString /\ random_pos w' = random_pos w].
Proof.
move=> Hnil.
have [clue [sense [cs [ss [Hg _ Hclue Hsense]]]]] := get_senseclue_pulls w.
have Ht x : SenseClueGenerator.truthy (Some x) = (x != EmptyString) by [].
do 2!eexists; split; first exact: Hg.
  case: clue sense Hclue Hsense {Hg} => [c|] [s|].
  - by move=> Hc Hs; move: Hnil; rewrite /nilp !size_eq0;
       case: (items (clue_selector w)) Hc => //; case: (items (sense_selector w)) Hs.
  - move=> Hc _; rewrite andbF /SenseClueGenerator.or_else.
    have [->|Hc0] := eqVneq c EmptyString; first by rewrite /= inE eqxx.
    by rewrite Ht Hc0 Ht Hc0 /= inE mem_cat Hc orbT.
  - move=> _ Hs; rewrite /SenseClueGenerator.or_else.
    have [->|Hs0] := eqVneq s EmptyString; first by rewrite /= inE eqxx.
    by rewrite [SenseClueGenerator.truthy None]/= Ht Hs0 /= inE mem_cat Hs !orbT.
  - by rewrite inE eqxx.
case/andP => Hc Hs; rewrite /= Hc Hs /= !addn0; split=> //.
by case: clue sense Hclue Hsense {Hg} => [c|] [s|] //=;
   move: Hc Hs; rewrite /nilp !size_eq0 => /eqP -> /eqP ->.
Qed.

(** X10: a default encounter never ends the game and never raises: it
    returns CONTINUE, prints exactly one line and reads no input,
    whatever the state of the selectors. *)
Theorem default_encounter_continues (w : world) :
  exists (out : string) (w' : world),
    [/\ DefaultEncounter.run_encounter w = Ok CONTINUE w',
        stdin w' = stdin w
      & stdout w' = rcons (stdout w) out].
Proof.
have [clue [sense [cs [ss [Hg _ _ _]]]]] := get_senseclue_pulls w.
rewrite /DefaultEncounter.run_encounter /SenseClueGenerator.pull_random_item.
by rewrite /bind Hg /=; do 2!eexists; split; first reflexivity.
Qed.

(* --------------------------------------------------------------------- *)
(* The castle and the game                                                *)
(* --------------------------------------------------------------------- *)

(** X11: when the castle has no room at all, next_room asks for a door
    all the same, then prints that no rooms are available and returns
    END; no raw draw is taken for the room. *)
Theorem next_room_no_rooms (c : castle) (w w1 : world) (v : Z) :
  items (room_selector c) = [::] ->
  Castle.select_door w = Ok v w1 ->
  Castle.next_room c w
  = Ok (END, MkCastle (Selector [::] [::]))
       (with_console (stdin w1) [:: "No rooms available."%string] w1).
Proof.
move=> Hnil Hdoor; rewrite /Castle.next_room /bind Hdoor.
rewrite /RandomItemSelector.pull_random_item Hnil /=.
by rewrite /with_console cats1.
Qed.

Lemma returns_next_room (c : castle) :
  returns (fun r => items (room_selector r.2) = items (room_selector c))
          (Castle.next_room c).
Proof.
rewrite /Castle.next_room.
apply: (@returns_bind _ _ (fun _ => True)).
  by move=> w; case: (Castle.select_door w) (returns_select_door w).
move=> _ _; apply: returns_bind (returns_pull _) _ => -[r s'] /= [Hit _].
case: r => [rm|]; last by returns0.
apply: returns_bind (returns_print _) _ => _ _.
apply: returns_bind (returns_run_encounter _) _ => outcome _.
exact: returns_ret.
Qed.

Lemma returns_game_round (g : game) :
  returns (fun r =>
             match r with
             | inl g' => items (room_selector (game_castle g'))
                         = items (room_selector (game_castle g))
             | inr g' => items (room_selector (game_castle g'))
                         = items (room_selector (game_castle g))
                         /\ used_items (room_selector (game_castle g')) = [::]
             end)
          (Game.round g).
Proof.
rewrite /Game.round.
apply: returns_bind (returns_next_room _) _ => -[outcome c] /= Hit.
case: outcome; first exact: returns_ret.
rewrite /Castle.reset.
apply: returns_bind (returns_bind (returns_print _) _) _.
  by move=> _ _; apply: (@returns_ret _ (fun c' => c' = MkCastle
       (RandomItemSelector.reset (room_selector c)))).
move=> _ ->; apply: returns_bind (returns_print _) _ => _ _.
apply: returns_bind (returns_input _) _ => line _.
by case: ifP => _; apply: returns_bind (returns_print _) _ => _ _; apply: returns_ret.
Qed.

(** X12: play_game never fails: on any input and any random source it
    returns, with the pool of rooms it started with and the castle reset,
    or raises EOFError because the input ended; it raises no IndexError,
    no KeyError, and does not loop for ever on an input that ends. *)
Theorem play_game_only_eof (g : game) (w : world) :
  match Game.play_game g w return Prop with
  | Ok g' _ => items (room_selector (game_castle g'))
               = items (room_selector (game_castle g))
               /\ used_items (room_selector (game_castle g')) = [::]
  | Raise e => e = EOFError
  | OutOfFuel => False
  end.
Proof.
rewrite /Game.play_game /bind /print /Game.rounds.
apply: (@returns_while_inv _ _
          (fun g' => items (room_selector (game_castle g'))
                     = items (room_selector (game_castle g)))) (ltnSn _) => //.
  exact: consumes_game_round.
move=> g0 Hg0; apply: returns_weaken (returns_game_round g0) => -[g'|g'].
  by rewrite Hg0.
by rewrite Hg0.
Qed.

Lemma next_room_treasure (c : castle) (w w1 : world) (v : Z) :
  items (room_selector c) != [::] ->
  all (fun rm => room_encounter rm == treasure_encounter) (items (room_selector c)) ->
  Castle.select_door w = Ok v w1 ->
  exists (c' : castle) (w2 : world),
    [/\ Castle.next_room c w = Ok (END, c') w2,
        stdin w2 = stdin w1
      & random_pos w2 = (random_pos w1).+1].
Proof.
move=> Hne /allP Hall Hdoor; rewrite /Castle.next_room /bind Hdoor.
have [r [s' [-> _]]] := pull_world (room_selector c) w1.
rewrite /nilp size_eq0 (negbTE Hne); case: r => // rm /Hall /eqP Hrm.
rewrite /= /Room.visit_room Hrm /=.
by do 2!eexists; split; first reflexivity.
Qed.

(** X13: a game whose castle holds treasure rooms only is over after
    exactly one visit: with a valid door on the first line and an answer
    that does not say yes on the second, play_game returns having read
    these two lines and taken two raw draws, one for the doors and one
    for the room. *)
Theorem treasure_only_game_ends (g : game) (w : world)
    (door answer : string) (rest : seq string) (v : Z) :
  items (room_selector (game_castle g)) != [::] ->
  all (fun rm => room_encounter rm == treasure_encounter)
      (items (room_selector (game_castle g))) ->
  stdin w = [:: door, answer & rest] ->
  int (strip door) = Some v -> (1 <= v <= 2)%Z ->
  ~~ Game.says_yes answer ->
  exists (g' : game) (w' : world),
    [/\ Game.play_game g w = Ok g' w',
        stdin w' = rest
      & random_pos w' = (random_pos w).+2].
Proof.
move=> Hne Hall Hin Hv [Hv1 Hv2] Hno.
rewrite /Game.play_game /bind /print /Game.rounds /enough_fuel.
set w0 := World _ _ _ _ _ _.
have Hin0 : stdin w0 = [:: door, answer & rest] by [].
have Hdoor : exists w1, [/\ Castle.select_door w0 = Ok v w1,
    stdin w1 = answer :: rest & random_pos w1 = (random_pos w).+1].
  rewrite select_door_loop.
  rewrite (@door_loop_first_valid _ _ _ [::] door (answer :: rest) v) //.
    by split=> //; rewrite -plusE; lia.
  by eexists; split; first reflexivity.
have [w1 [Hd Hst1 Hpos1]] := Hdoor.
have [c' [w2 [Hn Hst Hpos]]] := next_room_treasure Hne Hall Hd.
rewrite while_true_step /Game.round /bind Hn /= /input /= Hst Hst1 /=.
move: Hno; rewrite /Game.says_yes => /negbTE -> /=.
by do 2!eexists; split; [reflexivity | | rewrite /= Hpos Hpos1].
Qed.

(* --------------------------------------------------------------------- *)
(* The spell duel, on a line that is no choice                            *)
(* --------------------------------------------------------------------- *)

Lemma parse_idx_numbered (choice : string) :
  RedWizard.parse_idx choice
  = if numbered 1 5 choice then omap (fun v => (v - 1)%Z) (int choice) else None.
Proof.
rewrite /RedWizard.parse_idx /numbered; case: (int choice) => // v /=.
case: (Z.leb_spec 1 v) => H1; case: (Z.leb_spec v 5) => H5 /=;
  case: (Z.ltb_spec (v - 1) 0) => H0 //=; try lia;
  by rewrite Z.geb_leb; case: (Z.leb_spec 5 (v - 1)) => H //; lia.
Qed.

(** X15: in the spell duel a line that is not an integer from 1 to 5 is
    answered with the invalid-selection message and the menu again; the
    wizard draws nothing for it and the duel goes on with the next
    line. *)
Theorem duel_invalid_line (w : world) (line : string) (rest : seq string) :
  stdin w = line :: rest ->
  ~~ numbered 1 5 (strip line) ->
  let w' := with_console rest
              [:: nl +s "Choose a spell:"; "  1. Fireball"; "  2. Ice Shard";
                  "  3. Wind Gust"; "  4. Lightning Bolt"; "  5. Earthquake";
                  "Enter number (1-5): "; "Invalid selection. Try again."]%string
              w in
  RedWizard.round w = Ok (inl tt) w' /\ RedWizard.duel w = RedWizard.duel w'.
Proof.
move=> Hin Hbad w'.
have Hr : RedWizard.round w = Ok (inl tt) w'.
  rewrite /RedWizard.round /bind /= /input /= Hin /= parse_idx_numbered.
  by rewrite (negbTE Hbad) /= /w' /with_console -!cats1 -!catA.
split=> //.
by rewrite /RedWizard.duel /enough_fuel Hin while_true_step Hr.
Qed.

(* --------------------------------------------------------------------- *)
(* Rock Paper Scissors Lizard Spock                                       *)
(* --------------------------------------------------------------------- *)

Lemma rules_on_choices (a b : string) :
  dict_mem (a, b) rpsls.RULES -> (a \in rpsls.CHOICES) && (b \in rpsls.CHOICES).
Proof.
rewrite /dict_mem => H; rewrite !inE in H.
by repeat (case/orP: H => H); move/eqP: H => [-> ->].
Qed.

(** X16: determine_winner answers tie on equal arguments, and on
    different arguments it falls back to error exactly when one of them
    is not one of the five choices. *)
Theorem determine_winner_fallback (x y : string) (w : world) :
  x != y ->
  rpsls.determine_winner x x w = Ok ("tie", "It's a tie!")%string w
  /\ (rpsls.determine_winner x y w = Ok ("error", "Unexpected result.")%string w
      <-> ~~ ((x \in rpsls.CHOICES) && (y \in rpsls.CHOICES))).
Proof.
move=> Hne; split; first by rewrite /rpsls.determine_winner eqxx.
split=> [Herr|Hout].
  apply/negP => /andP [Hx Hy]; move: Herr Hne.
  by each_member Hx; each_member Hy.
rewrite /rpsls.determine_winner (negbTE Hne).
have -> : dict_mem (x, y) rpsls.RULES = false.
  by apply: contraNF Hout => /rules_on_choices.
have -> // : dict_mem (y, x) rpsls.RULES = false.
by apply: contraNF Hout => /rules_on_choices; rewrite andbC.
Qed.

Lemma determine_winner_witness :
  "rock"%string != "well"%string
  /\ rpsls.determine_winner "rock" "well" (SenseClueGenerator.new [::] (fun k => k))
     = Ok ("error", "Unexpected result.")%string
          (SenseClueGenerator.new [::] (fun k => k)).
Proof.
split; first by [].
exact: (proj2 (proj2 (@determine_winner_fallback "rock" "well"
          (SenseClueGenerator.new [::] (fun k => k)) (erefl _))) (erefl _)).
Defined.





Lemma consumes_rpsls_menu (i : nat) (cs : seq string) :
  consumes 0 (rpsls.print_menu i cs).
Proof. by elim: cs i => [|c cs IH] i /=; consume0. Qed.

Lemma consumes_choice_round : consumes 1 rpsls.choice_round.
Proof.
rewrite /rpsls.choice_round.
apply: (@consumes_bind _ _ 1 0); first exact: consumes_input.
by move=> line; consume0.
Qed.

Lemma consumes_get_user_choice : consumes 1 rpsls.get_user_choice.
Proof.
rewrite /rpsls.get_user_choice.
apply: (@consumes_bind _ _ 0 1); first exact: consumes_print.
move=> _; apply: (@consumes_bind _ _ 0 1); first exact: consumes_rpsls_menu.
move=> _ w; apply: consumes_while; last exact: ltnSn.
by move=> _; exact: consumes_choice_round.
Qed.

Lemma consumes_determine_winner (x y : string) :
  consumes 0 (rpsls.determine_winner x y).
Proof. by rewrite /rpsls.determine_winner; consume0. Qed.

Lemma consumes_rpsls_round : consumes 1 rpsls.round.
Proof.
rewrite /rpsls.round.
apply: (@consumes_bind _ _ 1 0); first exact: consumes_get_user_choice.
move=> u; rewrite /rpsls.get_computer_choice; consume0.
- exact: consumes_determine_winner.
- exact: consumes_weaken (consumes_input _).
Qed.

Lemma returns_rpsls_menu (i : nat) (cs : seq string) :
  returns (fun _ => True) (rpsls.print_menu i cs).
Proof. by elim: cs i => [|c cs IH] i /=; returns0. Qed.

Lemma returns_choice_round :
  returns (fun r => if r is inr c then c \in rpsls.CHOICES else True)
          rpsls.choice_round.
Proof.
rewrite /rpsls.choice_round.
apply: returns_bind (returns_input _) _ => line _.
case: (int line) => [v|]; last by returns0.
case: ifP => [/andP [/Z.leb_le H1 /Z.leb_le H5]|_]; last by returns0.
have Hv : Z.to_nat (v - 1) < size rpsls.CHOICES by apply/ltP; rewrite /=; lia.
apply: returns_bind (returns_getitem Hv) _ => c Hc.
exact: returns_ret.
Qed.

Lemma returns_get_user_choice : returns [in rpsls.CHOICES] rpsls.get_user_choice.
Proof.
rewrite /rpsls.get_user_choice.
apply: returns_bind (returns_print _) _ => _ _.
apply: returns_bind (returns_rpsls_menu _ _) _ => _ _ w.
apply: returns_while (ltnSn _) => _; first exact: consumes_choice_round.
exact: returns_choice_round.
Qed.

(* Between two of the five choices determine_winner finds its answer in
   the table. *)
Lemma determine_winner_on_choices (x y : string) (w : world) :
  x \in rpsls.CHOICES -> y \in rpsls.CHOICES ->
  exists result reason : string,
    rpsls.determine_winner x y w = Ok (result, reason) w
    /\ result \in [:: "tie"; "win"; "lose"]%string.
Proof.
move=> Hx Hy; each_member Hx; each_member Hy;
  by do 2!eexists; split; [vm_compute; reflexivity |].
Qed.

Lemma returns_rpsls_round : returns (fun _ => True) rpsls.round.
Proof.
rewrite /rpsls.round.
apply: returns_bind returns_get_user_choice _ => u Hu.
apply: (returns_bind (@returns_random_choice _ rpsls.CHOICES isT)) => c Hc.
apply: returns_bind (returns_print _) _ => _ _.
apply: returns_bind (returns_print _) _ => _ _.
apply: (@returns_bind _ _ (fun _ => True)).
  move=> w; have [res [reason [-> _]]] := determine_winner_on_choices w Hu Hc.
  by [].
by move=> [res reason] _; returns0.
Qed.

(** X19: main never fails: on any input and any random source it returns
    or raises EOFError because the input ended; it raises no IndexError,
    no KeyError, and does not loop for ever on an input that ends. *)
Theorem main_only_eof (w : world) :
  match rpsls.main w return Prop with
  | Ok _ _ => True
  | Raise e => e = EOFError
  | OutOfFuel => False
  end.
Proof.
rewrite /rpsls.main /bind /print /rpsls.rounds.
apply: (@returns_while _ _ (fun _ => True)) (ltnSn _) => _.
  exact: consumes_rpsls_round.
by apply: returns_weaken returns_rpsls_round => -[].
Qed.

(** X18: after a round of main, the game goes on only when the answer,
    stripped and lowered, is exactly y (so yes ends the game, unlike in
    the castle); the round takes one raw draw for the computer and reads
    the answer line. *)
Theorem main_replays_on_exact_y (w w1 : world) (u answer : string)
    (rest : seq string) :
  rpsls.get_user_choice w = Ok u w1 ->
  stdin w1 = answer :: rest ->
  let again := lower (strip answer) == "y"%string in
  exists w' : world,
    [/\ stdin w' = rest,
        random_pos w' = (random_pos w1).+1,
        rpsls.round w = Ok (if again then inl tt else inr tt) w'
      & rpsls.rounds w = if again then rpsls.rounds w' else Ok tt w'].
Proof.
move=> Hu Hin again.
have Hu' : u \in rpsls.CHOICES.
  by have := returns_get_user_choice w; rewrite Hu.
have [w' [Hst Hpos Hr]] : exists w' : world,
    [/\ stdin w' = rest, random_pos w' = (random_pos w1).+1
      & rpsls.round w = Ok (if again then inl tt else inr tt) w'].
  rewrite /rpsls.round /bind Hu /rpsls.get_computer_choice.
  rewrite (random_choice_nth EmptyString) //.
  set c := nth _ _ _.
  have Hc : c \in rpsls.CHOICES by rewrite mem_nth // ltn_mod.
  rewrite /print.
  set w2 := World _ _ _ _ _ _.
  have [res [reason [-> _]]] := determine_winner_on_choices w2 Hu' Hc.
  have -> : (if res == "win"%string then print ("You win!" +s nl)
             else if res == "lose"%string then print ("You lose!" +s nl)
             else print ("It's a tie!" +s nl))
            = print (if res == "win"%string then "You win!" +s nl
                     else if res == "lose"%string then "You lose!" +s nl
                     else "It's a tie!" +s nl).
    by case: ifP => // _; case: ifP.
  rewrite /print /input [stdin _]/= Hin.
  rewrite -/again; case: again => /=.
    by eexists; split; last reflexivity.
  by eexists; split; last reflexivity.
exists w'; split=> //.
rewrite [LHS]/rpsls.rounds /enough_fuel while_true_step Hr.
case: again Hr => // Hr.
apply: while_true_fuel; [by move=> _; exact: consumes_rpsls_round | | exact: ltnSn].
by have := consumes_rpsls_round w; rewrite Hr addn1.
Qed.


Lemma next_room_draws (s : selector room) (w w' : world)
    (out : EncounterOutcome) (c' : castle) :
  uniq (items s) -> RandomItemSelector.within_cycle s ->
  size (used_items s) < size (items s) ->
  Castle.next_room (MkCastle s) w = Ok (out, c') w' ->
  exists rm : room,
    [/\ rm \in items s, rm \notin used_items s,
        room_selector c' = Selector (items s) (rcons (used_items s) rm)
      & room_encounter rm = treasure_encounter -> out = END].
Proof.
move=> Hun Hin Hlt; rewrite /Castle.next_room /bind.
case: (Castle.select_door w) => // v w1.
have x0 : room by case: (items s) Hlt.
have [-> Hrm Hnu _] := pull_within_cycle w1 x0 Hun Hin Hlt.
set rm := nth x0 _ _ in Hrm Hnu *; rewrite /= /Room.visit_room.
case E: (Encounter.run_encounter _ _) => [o w2||] // [Ho Hc' _].
exists rm; split=> //; first by rewrite -Hc'.
by move=> Ht; move: E; rewrite -Ho Ht /= => -[].
Qed.

Lemma visits_draw (k : nat) (s : selector room) (w w' : world)
    (outs : seq EncounterOutcome) (c' : castle) :
  uniq (items s) -> RandomItemSelector.within_cycle s ->
  size (used_items s) + k <= size (items s) ->
  visits k (MkCastle s) w = Ok (outs, c') w' ->
  END \in outs
  \/ exists drawn : seq room,
       [/\ size drawn = k,
           RandomItemSelector.within_cycle (Selector (items s) (used_items s ++ drawn))
         & all (fun rm => room_encounter rm != treasure_encounter) drawn].
Proof.
elim: k s w w' outs c' => [|k IH] s w w' outs c' Hun Hin Hle.
  by move=> _; right; exists [::]; rewrite cats0; split=> //; case: s Hin {Hun Hle}.
have Hlt : size (used_items s) < size (items s).
  by apply: leq_trans Hle; rewrite addnS ltnS leq_addr.
rewrite /= /bind; case E: (Castle.next_room _ _) => [[out c1] w1||] //=.
have [rm [Hrm Hnu Hc1 Hout]] := next_room_draws Hun Hin Hlt E.
case E2: (visits k c1 w1) => [[outs' c2] w2||] //= [<- _ _].
have Hin1 : RandomItemSelector.within_cycle (Selector (items s) (rcons (used_items s) rm)).
  case/andP: Hin => Hu Ha.
  by rewrite /RandomItemSelector.within_cycle /= rcons_uniq Hnu Hu all_rcons Hrm Ha.
move: E2; have -> : c1 = MkCastle (Selector (items s) (rcons (used_items s) rm)).
  by case: c1 Hc1 {E} => s1 /= ->.
move=> E2.
have [|Hend|[drawn [Hsz Hw Hall]]] :=
  IH (Selector (items s) (rcons (used_items s) rm)) w1 w2 outs' c2 Hun Hin1 _ E2.
- by rewrite /= size_rcons addSn -addnS.
- by left; rewrite inE Hend orbT.
case Ht: (room_encounter rm == treasure_encounter).
  by left; rewrite (Hout (eqP Ht)) inE eqxx.
right; exists (rm :: drawn); split; rewrite /= ?Hsz ?Ht -?cat_rcons //.
Qed.

(** X14: in a castle of pairwise-distinct rooms one of which holds the
    treasure, as many visits in a row as there are rooms, starting with
    nothing drawn, cannot all let the game go on: one of them returns
    END (the treasure is found, unless the game ended before). *)
Theorem treasure_within_one_cycle (rooms : seq room) (w w' : world)
    (outs : seq EncounterOutcome) (c' : castle) :
  uniq rooms ->
  has (fun rm => room_encounter rm == treasure_encounter) rooms ->
  visits (size rooms) (MkCastle (Selector rooms [::])) w = Ok (outs, c') w' ->
  END \in outs.
Proof.
move=> Hun /hasP [t Ht Htr] Hv.
have [||//|[drawn [Hsz /andP [Hu /allP Hsub] /allP Hall]]] :=
  @visits_draw _ (Selector rooms [::]) _ _ _ _ Hun _ _ Hv; [by [] | by [] |].
rewrite /= in Hu Hsub.
have [_ Heq] := uniq_min_size Hu Hsub (eq_leq (esym Hsz)).
by have := Hall t; rewrite Heq Ht Htr => /(_ isT).
Qed.

(* --------------------------------------------------------------------- *)
(* The theorems above at concrete inputs                                  *)
(* --------------------------------------------------------------------- *)

Lemma available_indices_distinct_witness :
  uniq [:: "a"; "b"; "c"]%string
  /\ (1 \in RandomItemSelector.available_indices
              (Selector [:: "a"; "b"; "c"] [:: "b"])%string) = false.
Proof.
split; first by [].
by rewrite (@available_indices_distinct _
              (Selector [:: "a"; "b"; "c"] [:: "b"])%string EmptyString 1 (erefl _)).
Defined.

Lemma every_cycle_is_a_permutation_witness :
  [/\ uniq [:: "a"; "b"]%string & [:: "a"; "b"]%string != [::]]
  /\ exists rs s' w',
       [/\ RandomItemSelector.pull_n 4
             (RandomItemSelector.reset (Selector [:: "a"; "b"] [:: "a"])%string)
             (SenseClueGenerator.new [::] (fun k => k)) = Ok (rs, s') w',
           size rs = 4
         & all (fun c => perm_eq c [:: Some "a"; Some "b"]%string)
               (reshape [:: 2; 2] rs)].
Proof.
split; first by [].
exact: (@every_cycle_is_a_permutation _
          (Selector [:: "a"; "b"] [:: "a"])%string 2
          (SenseClueGenerator.new [::] (fun k => k)) (erefl _) (erefl _)).
Defined.

Lemma distinct_pool_used_submultiset_witness :
  let s := RandomItemSelector.init [:: "a"; "b"]%string in
  let os := [:: RandomItemSelector.Pull string;
                RandomItemSelector.AddItem "c"%string;
                RandomItemSelector.Pull string; RandomItemSelector.Pull string;
                RandomItemSelector.Reset string; RandomItemSelector.Pull string] in
  [/\ uniq (items s), RandomItemSelector.within_cycle s
    & RandomItemSelector.adds_fresh os (items s)]
  /\ exists s' w',
       [/\ RandomItemSelector.run_ops os s (SenseClueGenerator.new [::] (fun k => k))
           = Ok s' w',
           uniq (items s')
         & RandomItemSelector.submultiset (used_items s') (items s')].
Proof.
move=> s os; split; first by [].
exact: (@distinct_pool_used_submultiset _ os s
          (SenseClueGenerator.new [::] (fun k => k)) (erefl _) (erefl _) (erefl _)).
Defined.


Lemma get_senseclue_combines_witness :
  let w := SenseClueGenerator.new [::] (fun k => k) in
  [/\ items (clue_selector w) != [::], items (sense_selector w) != [::],
      EmptyString \notin items (clue_selector w)
    & EmptyString \notin items (sense_selector w)]
  /\ exists c s w',
       [/\ SenseClueGenerator.get_senseclue w = Ok (s +s " " +s c) w',
           c \in clues /\ s \in sense_exp
         & random_pos w' = 2].
Proof.
move=> w; split; first by [].
have [c [s [w' [H1 H2 H3 _]]]] :=
  @get_senseclue_combines w (erefl _) (erefl _) (erefl _) (erefl _).
by exists c, s, w'.
Defined.

Lemma get_senseclue_fallback_witness :
  let w := World [::] [::] (fun k => k) 0
                 (Selector [::] [::]) (Selector [:: "You see."%string] [::]) in
  nilp (items (clue_selector w)) || nilp (items (sense_selector w))
  /\ exists out w',
       SenseClueGenerator.get_senseclue w = Ok out w'
       /\ out \in [:: EmptyString; "You see."%string].
Proof.
move=> w; split; first by [].
have [out [w' [H1 H2 _]]] := @get_senseclue_fallback w (erefl _).
by exists out, w'.
Defined.

Lemma next_room_no_rooms_witness :
  let w := SenseClueGenerator.new [:: "1"%string] (fun _ => 0) in
  exists v w1,
    [/\ items (room_selector (Castle.init (Some [::]))) = [::],
        Castle.select_door w = Ok v w1
      & Castle.next_room (Castle.init (Some [::])) w
        = Ok (END, MkCastle (Selector [::] [::]))
             (with_console (stdin w1) [:: "No rooms available."%string] w1)].
Proof.
move=> w.
have [v [w1 Hd]] : exists v w1, Castle.select_door w = Ok v w1.
  by do 2!eexists; vm_compute; reflexivity.
exists v, w1; split=> //.
exact: (@next_room_no_rooms (Castle.init (Some [::])) w w1 v (erefl _) Hd).
Defined.

Lemma treasure_only_game_ends_witness :
  let g := Game.init (Some [:: MkRoom 6 "Treasure Room" treasure_encounter]) in
  let w := SenseClueGenerator.new [:: "1"; "n"; "x"]%string (fun k => k) in
  [/\ items (room_selector (game_castle g)) != [::],
      all (fun rm => room_encounter rm == treasure_encounter)
          (items (room_selector (game_castle g))),
      stdin w = [:: "1"; "n"; "x"]%string,
      int (strip "1") = Some 1%Z
    & ~~ Game.says_yes "n"]
  /\ exists g' w',
       [/\ Game.play_game g w = Ok g' w', stdin w' = [:: "x"%string]
         & random_pos w' = 2].
Proof.
move=> g w; split; first by [].
have H := @treasure_only_game_ends g w "1"%string "n"%string [:: "x"%string] 1%Z
            (erefl _) (erefl _) (erefl _) (erefl _).
by apply: H => //; split.
Defined.

Lemma treasure_within_one_cycle_witness :
  let rooms := [:: MkRoom 0 "Great Hall" default_encounter;
                   MkRoom 6 "Treasure Room" treasure_encounter] in
  let w := SenseClueGenerator.new [:: "1"; "1"]%string (fun _ => 0) in
  [/\ uniq rooms
    & has (fun rm => room_encounter rm == treasure_encounter) rooms]
  /\ exists outs c' w',
       visits 2 (MkCastle (Selector rooms [::])) w = Ok (outs, c') w'
       /\ END \in outs.
Proof.
move=> rooms w; split; first by [].
have [outs [c' [w' Hv]]] : exists outs c' w',
    visits 2 (MkCastle (Selector rooms [::])) w = Ok (outs, c') w'.
  by do 3!eexists; vm_compute; reflexivity.
exists outs, c', w'; split=> //.
exact: (@treasure_within_one_cycle rooms w w' outs c' (erefl _) (erefl _) Hv).
Defined.

Lemma duel_invalid_line_witness :
  let w := SenseClueGenerator.new [:: "9"; "1"]%string (fun _ => 1) in
  [/\ stdin w = [:: "9"; "1"]%string & ~~ numbered 1 5 (strip "9")]
  /\ exists w', [/\ RedWizard.round w = Ok (inl tt) w', stdin w' = [:: "1"%string]
                  & random_pos w' = 0].
Proof.
move=> w; split; first by [].
have [H _] := @duel_invalid_line w "9"%string [:: "1"%string] (erefl _) (erefl _).
by eexists; split; first exact: H.
Defined.


Lemma main_replays_on_exact_y_witness :
  let w := SenseClueGenerator.new [:: "1"; "yes"; "2"]%string (fun k => k) in
  exists w1 w',
    [/\ rpsls.get_user_choice w = Ok "rock"%string w1,
        stdin w1 = [:: "yes"; "2"]%string
      & rpsls.round w = Ok (inr tt) w'].
Proof.
move=> w.
have [w1 [Hu Hin]] : exists w1, rpsls.get_user_choice w = Ok "rock"%string w1
                                 /\ stdin w1 = [:: "yes"; "2"]%string.
  by eexists; split; first (vm_compute; reflexivity).
have [w' [_ _ Hr _]] :=
  @main_replays_on_exact_y w w1 "rock"%string "yes"%string [:: "2"%string] Hu Hin.
by exists w1, w'.
Defined.
